(** * ChatVRM: streaming chat page and avatar control client

  A shallow embedding of the two source files of the repository:

  - the chat page component ([Home]): the per-chunk segmentation of the
    streamed reply ([handleSendChat]), the speech dispatcher
    ([handleSpeakAi]), the busy gate of the websocket LLM callback and the
    command handler registered on the avatar client;
  - [src/lib/avatarClient.ts]: the [AvatarClient] class, a reconnecting
    WebSocket client.

  JavaScript strings are sequences of UTF-16 code units, the regular
  expressions of the page are values of a small regex syntax run by a
  backtracking matcher with JavaScript's priorities, asynchronous
  functions are split at their [await], and closures are data that carry
  the variables they captured. *)

From Stdlib Require Import NArith Lia Ascii String.
From stdpp Require Import base list strings.

Local Open Scope N_scope.

(** ** JavaScript strings *)

Module JsString.

(** One UTF-16 code unit. Every character the page names is in the Basic
    Multilingual Plane, hence one unit. *)
Definition code_unit : Type := N.
Definition str : Type := list code_unit.

(** An ASCII literal. *)
Fixpoint lit (s : string) : str :=
  match s with
  | EmptyString => []
  | String a s' => N_of_ascii a :: lit s'
  end.

(** ECMAScript LineTerminator: LF, CR, LS, PS. *)
Definition is_line_terminator (c : code_unit) : bool :=
  (c =? 0x0A) || (c =? 0x0D) || (c =? 0x2028) || (c =? 0x2029).

(** ECMAScript WhiteSpace: TAB, VT, FF, SP, NBSP, ZWNBSP and the
    Unicode space separators. *)
Definition is_white_space (c : code_unit) : bool :=
  (c =? 0x09) || (c =? 0x0B) || (c =? 0x0C) || (c =? 0x20) || (c =? 0xA0)
  || (c =? 0x1680) || ((0x2000 <=? c) && (c <=? 0x200A))
  || (c =? 0x202F) || (c =? 0x205F) || (c =? 0x3000) || (c =? 0xFEFF).

(** What [String.prototype.trimStart] removes and what [\s] matches. *)
Definition is_space (c : code_unit) : bool :=
  is_white_space c || is_line_terminator c.

(** [s.trimStart()] *)
Fixpoint trimStart (s : str) : str :=
  match s with
  | c :: s' => if is_space c then trimStart s' else s
  | [] => []
  end.

(** [s.slice(n)] for [0 <= n]. *)
Definition slice (n : nat) (s : str) : str := drop n s.

(** A string is truthy when it is not empty. *)
Definition truthy (s : str) : bool :=
  match s with [] => false | _ :: _ => true end.

(** [a.join(sep)] *)
Fixpoint join (sep : str) (a : list str) : str :=
  match a with
  | [] => []
  | [x] => x
  | x :: rest => x ++ sep ++ join sep rest
  end.

End JsString.

(** ** Regular expressions

  The fragment of JavaScript's regular expressions the page uses: character
  classes, a quantified class ([c{lo,}], greedy or lazy), concatenation,
  ordered alternation and the end anchor. Every pattern of the page starts
  with [^] and has no [m] flag, so a match can only start at index 0; the
  capture groups are never read (only [m[0]] is). *)

Module Regex.
Import JsString.

Definition cls : Type := code_unit -> bool.

Inductive re : Type :=
| Cls (p : cls)                          (* [...]            *)
| Rep (greedy : bool) (lo : nat) (p : cls) (* [...]{lo,} and [...]{lo,}? *)
| Cat (r1 r2 : re)                       (* r1 r2            *)
| Alt (r1 r2 : re)                       (* r1 | r2          *)
| Eoi.                                   (* $                *)

(** The matcher is a backtracking one in continuation-passing style: the
    continuation is the rest of the pattern and answers with the input left
    after the whole match. The first success in JavaScript's order wins: a
    greedy quantifier tries one more repetition before it tries to stop, a
    lazy one stops first, an alternation tries its left branch first. *)
Definition cont : Type := str -> option str.

Fixpoint many (greedy : bool) (p : cls) (s : str) (k : cont) : option str :=
  match s with
  | c :: s' =>
      if p c then
        if greedy then
          match many greedy p s' k with
          | Some r => Some r
          | None => k s
          end
        else
          match k s with
          | Some r => Some r
          | None => many greedy p s' k
          end
      else k s
  | [] => k []
  end.

Fixpoint at_least (greedy : bool) (p : cls) (lo : nat) (s : str) (k : cont)
  : option str :=
  match lo with
  | O => many greedy p s k
  | S n =>
      match s with
      | c :: s' => if p c then at_least greedy p n s' k else None
      | [] => None
      end
  end.

Fixpoint run (r : re) (s : str) (k : cont) : option str :=
  match r with
  | Cls p =>
      match s with
      | c :: s' => if p c then k s' else None
      | [] => None
      end
  | Rep g lo p => at_least g p lo s k
  | Cat r1 r2 => run r1 s (fun s1 => run r2 s1 k)
  | Alt r1 r2 =>
      match run r1 s k with
      | Some x => Some x
      | None => run r2 s k
      end
  | Eoi =>
      match s with
      | [] => k []
      | _ :: _ => None
      end
  end.

(** The input left after the match of [^r] on [s]. *)
Definition exec (r : re) (s : str) : option str := run r s Some.

(** [s.match(/^r/)]: [None] is JavaScript's [null], [Some m] is [m[0]]. *)
Definition match0 (r : re) (s : str) : option str :=
  match exec r s with
  | Some rest => Some (take (length s - length rest) s)
  | None => None
  end.

(** [s.replace(/^r/g, "")]: the match at index 0, if any, is removed; with
    [^] and no [m] flag there is no later match. *)
Definition replace_empty (r : re) (s : str) : str :=
  match exec r s with
  | Some rest => rest
  | None => s
  end.

(** What a pattern denotes: [lang r u v] when [r] can match [u] in front of
    the remaining input [v]. *)
Inductive lang : re -> str -> str -> Prop :=
| lang_cls p c v : p c = true -> lang (Cls p) [c] v
| lang_rep g lo p u v :
    Forall (fun c => p c = true) u -> (lo <= length u)%nat ->
    lang (Rep g lo p) u v
| lang_cat r1 r2 u1 u2 v :
    lang r1 u1 (u2 ++ v) -> lang r2 u2 v -> lang (Cat r1 r2) (u1 ++ u2) v
| lang_alt_l r1 r2 u v : lang r1 u v -> lang (Alt r1 r2) u v
| lang_alt_r r1 r2 u v : lang r2 u v -> lang (Alt r1 r2) u v
| lang_eoi : lang Eoi [] [].

End Regex.

(** ** Exceptions and state

  Synchronous JavaScript code over a state [S]: a computation ends
  normally with a value or abruptly with a thrown value, and leaves a
  state either way. *)

Module Js.

(** What is thrown: an [Error] object with its message, or another value. *)
Inductive exn : Type :=
| Error (message : string)
| Thrown.

Inductive completion (A : Type) : Type :=
| Normal (a : A)
| Throw (e : exn).
Arguments Normal {A} a.
Arguments Throw {A} e.

Definition M (S A : Type) : Type := S -> completion A * S.

Definition ret {S A} (a : A) : M S A := fun s => (Normal a, s).

Definition bind {S A B} (m : M S A) (f : A -> M S B) : M S B :=
  fun s =>
    match m s with
    | (Normal a, s1) => f a s1
    | (Throw e, s1) => (Throw e, s1)
    end.

Definition modify {S} (f : S -> S) : M S unit := fun s => (Normal tt, f s).

(** A computation whose completion is already known: the resumption of an
    [await] whose promise settled with [o]. *)
Definition settled {S A} (o : completion A) : M S A := fun s => (o, s).

(** [try { body } catch (e) { handler e }] *)
Definition try_catch {S A} (body : M S A) (handler : exn -> M S A) : M S A :=
  fun s =>
    match body s with
    | (Normal a, s1) => (Normal a, s1)
    | (Throw e, s1) => handler e s1
    end.

(** [try { body } finally { final }]: [final] always runs; the completion
    is the one of [body] unless [final] itself throws. *)
Definition try_finally {S A} (body : M S A) (final : M S unit) : M S A :=
  fun s =>
    match body s with
    | (c, s1) =>
        match final s1 with
        | (Normal _, s2) => (c, s2)
        | (Throw e, s2) => (Throw e, s2)
        end
    end.

(** The state a computation leaves behind. *)
Definition effect {S A} (m : M S A) (s : S) : S := snd (m s).

End Js.

Notation "m ;; k" := (Js.bind m (fun _ => k))
(at level 100, k at level 200, right associativity).

(** ** src/lib/avatarClient.ts *)

Module AvatarClient.

(** The JSON the client and the page exchange: objects whose fields hold
    strings and booleans. A frame on the wire is [JSON.stringify] of such
    an object, which is injective on them, so a frame is recorded as the
    object itself. *)
Inductive JsonValue : Type :=
| JString (s : string)
| JBool (b : bool).

Definition Json : Type := list (string * JsonValue).

(** [CommandMessage]: a [type] and whatever other fields the frame has. *)
Record CommandMessage : Type := mkCommand {
  type : string;
  fields : Json;
}.

(** What a handler can do to the client: call its public methods. An
    exception a handler throws is caught by the loop that calls it, so a
    handler is the list of the calls it makes. *)
Inductive Call : Type :=
| Connect
| Disconnect
| Send (message : Json).

Definition CommandHandler : Type := CommandMessage -> list Call.
Definition ConnectionHandler : Type := bool -> list Call.

Inductive ReadyState : Type := CONNECTING | OPEN | CLOSING | CLOSED.

Definition ReadyState_eqb (a b : ReadyState) : bool :=
  match a, b with
  | CONNECTING, CONNECTING | OPEN, OPEN | CLOSING, CLOSING | CLOSED, CLOSED =>
      true
  | _, _ => false
  end.

(** A browser [WebSocket]. The four callbacks are either the closures
    [connect] installs ([true]) or [null] ([false]); [sent] is what
    [send] handed to the transport. *)
Record WebSocket : Type := mkWebSocket {
  readyState : ReadyState;
  onopen : bool;
  onmessage : bool;
  onerror : bool;
  onclose : bool;
  sent : list Json;
}.

(** The client object with the part of the browser it lives in: the
    sockets it has constructed (a socket is named by its index) and the
    timeouts that are pending, each with its delay. *)
Record World : Type := mkWorld {
  ws : option nat;
  url : string;
  reconnectTimer : option nat;
  connected : bool;
  destroyed : bool;
  commandHandlers : list CommandHandler;
  connectionHandlers : list ConnectionHandler;
  sockets : list WebSocket;
  timers : list (nat * N);
  nextTimer : nat;
  (** whether [new WebSocket(url)] returns rather than throws *)
  constructible : bool;
}.

Definition reconnectInterval : N := 5000.

(** [new AvatarClient(url)] *)
Definition new (u : string) (ok : bool) : World :=
  {| ws := None; url := u; reconnectTimer := None; connected := false;
     destroyed := false; commandHandlers := []; connectionHandlers := [];
     sockets := []; timers := []; nextTimer := 1; constructible := ok |}.

Definition default_url : string := "ws://localhost:8765".

(** Field updates. *)
Definition set_ws (v : option nat) (c : World) : World :=
  mkWorld v (url c) (reconnectTimer c) (connected c) (destroyed c)
    (commandHandlers c) (connectionHandlers c) (sockets c) (timers c)
    (nextTimer c) (constructible c).
Definition set_reconnectTimer (v : option nat) (c : World) : World :=
  mkWorld (ws c) (url c) v (connected c) (destroyed c)
    (commandHandlers c) (connectionHandlers c) (sockets c) (timers c)
    (nextTimer c) (constructible c).
Definition set_connected (v : bool) (c : World) : World :=
  mkWorld (ws c) (url c) (reconnectTimer c) v (destroyed c)
    (commandHandlers c) (connectionHandlers c) (sockets c) (timers c)
    (nextTimer c) (constructible c).
Definition set_destroyed (v : bool) (c : World) : World :=
  mkWorld (ws c) (url c) (reconnectTimer c) (connected c) v
    (commandHandlers c) (connectionHandlers c) (sockets c) (timers c)
    (nextTimer c) (constructible c).
Definition set_commandHandlers (v : list CommandHandler) (c : World) : World :=
  mkWorld (ws c) (url c) (reconnectTimer c) (connected c) (destroyed c)
    v (connectionHandlers c) (sockets c) (timers c)
    (nextTimer c) (constructible c).
Definition set_connectionHandlers (v : list ConnectionHandler) (c : World)
  : World :=
  mkWorld (ws c) (url c) (reconnectTimer c) (connected c) (destroyed c)
    (commandHandlers c) v (sockets c) (timers c)
    (nextTimer c) (constructible c).
Definition set_sockets (v : list WebSocket) (c : World) : World :=
  mkWorld (ws c) (url c) (reconnectTimer c) (connected c) (destroyed c)
    (commandHandlers c) (connectionHandlers c) v (timers c)
    (nextTimer c) (constructible c).
Definition set_timers (v : list (nat * N)) (c : World) : World :=
  mkWorld (ws c) (url c) (reconnectTimer c) (connected c) (destroyed c)
    (commandHandlers c) (connectionHandlers c) (sockets c) v
    (nextTimer c) (constructible c).
Definition set_nextTimer (v : nat) (c : World) : World :=
  mkWorld (ws c) (url c) (reconnectTimer c) (connected c) (destroyed c)
    (commandHandlers c) (connectionHandlers c) (sockets c) (timers c)
    v (constructible c).

(** *** The browser *)

(** [setTimeout(callback, delay)]: a fresh handle, never 0. *)
Definition setTimeout (delay : N) (c : World) : nat * World :=
  (nextTimer c,
   set_nextTimer (S (nextTimer c)) (set_timers (timers c ++ [(nextTimer c, delay)]) c)).

(** [clearTimeout(handle)] *)
Definition clearTimeout (handle : nat) (c : World) : World :=
  set_timers (filter (fun t => fst t ≠ handle) (timers c)) c.

(** [new WebSocket(url)] with the four callbacks [connect] assigns. *)
Definition fresh_socket : WebSocket :=
  {| readyState := CONNECTING; onopen := true; onmessage := true;
     onerror := true; onclose := true; sent := [] |}.

(** [socket.send(frame)]: throws while CONNECTING ([None]), queues the
    frame while OPEN, drops it afterwards. *)
Definition WebSocket_send (frame : Json) (s : WebSocket) : option WebSocket :=
  match readyState s with
  | CONNECTING => None
  | OPEN =>
      Some (mkWebSocket (readyState s) (onopen s) (onmessage s) (onerror s)
              (onclose s) (sent s ++ [frame]))
  | CLOSING | CLOSED => Some s
  end.

(** [socket.close()] *)
Definition WebSocket_close (s : WebSocket) : WebSocket :=
  match readyState s with
  | CONNECTING | OPEN =>
      mkWebSocket CLOSING (onopen s) (onmessage s) (onerror s) (onclose s)
        (sent s)
  | CLOSING | CLOSED => s
  end.

(** The four assignments of [null] in [disconnect]. *)
Definition WebSocket_detach (s : WebSocket) : WebSocket :=
  mkWebSocket (readyState s) false false false false (sent s).

Definition WebSocket_set_readyState (r : ReadyState) (s : WebSocket)
  : WebSocket :=
  mkWebSocket r (onopen s) (onmessage s) (onerror s) (onclose s) (sent s).

Definition update_socket (id : nat) (f : WebSocket -> WebSocket) (c : World)
  : World :=
  match sockets c !! id with
  | Some s => set_sockets (<[id := f s]> (sockets c)) c
  | None => c
  end.

(** [this.ws?.readyState === WebSocket.OPEN] *)
Definition ws_is_open (c : World) : bool :=
  match ws c with
  | Some id =>
      match sockets c !! id with
      | Some s => ReadyState_eqb (readyState s) OPEN
      | None => false
      end
  | None => false
  end.

(** *** The methods *)

(** Lines 166-176. *)
Definition scheduleReconnect (c : World) : World :=
  match reconnectTimer c with
  | Some _ => c
  | None =>
      let '(handle, c1) := setTimeout reconnectInterval c in
      set_reconnectTimer (Some handle) c1
  end.

(** Lines 46-98. *)
Definition connect (c : World) : World :=
  if destroyed c then c
  else if ws_is_open c then c
  else if constructible c then
    set_ws (Some (length (sockets c)))
      (set_sockets (sockets c ++ [fresh_socket]) c)
  else scheduleReconnect c.

(** The [if (this.reconnectTimer) { clearTimeout(...); ... = null }] of
    [onopen] and [disconnect]. *)
Definition cancelReconnect (c : World) : World :=
  match reconnectTimer c with
  | Some handle => set_reconnectTimer None (clearTimeout handle c)
  | None => c
  end.

(** Lines 100-119. *)
Definition disconnect (c : World) : World :=
  let c1 := cancelReconnect (set_destroyed true c) in
  let c2 :=
    match ws c1 with
    | Some id =>
        set_ws None
          (update_socket id WebSocket_close
             (update_socket id WebSocket_detach c1))
    | None => c1
    end in
  set_connected false c2.

(** Lines 121-123. *)
Definition isConnected (c : World) : bool := connected c && ws_is_open c.

(** Lines 143-154. *)
Definition send (message : Json) (c : World) : World :=
  if negb (isConnected c) then c
  else
    match ws c with
    | Some id =>
        match sockets c !! id with
        | Some s =>
            match WebSocket_send message s with
            | Some s' => set_sockets (<[id := s']> (sockets c)) c
            | None => c
            end
        | None => c
        end
    | None => c
    end.

(** Lines 125-131. *)
Definition onCommand (handler : CommandHandler) (c : World) : World :=
  set_commandHandlers (commandHandlers c ++ [handler]) c.
Definition onConnectionChange (handler : ConnectionHandler) (c : World)
  : World :=
  set_connectionHandlers (connectionHandlers c ++ [handler]) c.

Definition perform (c : World) (call : Call) : World :=
  match call with
  | Connect => connect c
  | Disconnect => disconnect c
  | Send message => send message c
  end.

(** Lines 133-141. *)
Definition notifyConnectionChange (b : bool) (c : World) : World :=
  fold_left (fun c1 handler => fold_left perform (handler b) c1)
    (connectionHandlers c) c.

(** Lines 156-164. *)
Definition handleCommand (command : CommandMessage) (c : World) : World :=
  fold_left (fun c1 handler => fold_left perform (handler command) c1)
    (commandHandlers c) c.

Definition identify : Json :=
  [("type", JString "identify"); ("role", JString "renderer")]%string.

(** Lines 61-72. [this.ws?.send] is the raw socket's [send]; when it
    throws, the exception leaves the callback and nothing follows it. *)
Definition ws_onopen (c : World) : World :=
  let c1 := notifyConnectionChange true (set_connected true c) in
  let c2 := cancelReconnect c1 in
  match ws c2 with
  | Some id =>
      match sockets c2 !! id with
      | Some s =>
          match WebSocket_send identify s with
          | Some s' => set_sockets (<[id := s']> (sockets c2)) c2
          | None => c2
          end
      | None => c2
      end
  | None => c2
  end.

(** Lines 74-82; [None] is a frame [JSON.parse] rejects. *)
Definition ws_onmessage (data : option CommandMessage) (c : World) : World :=
  match data with
  | Some command => handleCommand command c
  | None => c
  end.

(** Lines 84-86. *)
Definition ws_onerror (c : World) : World := c.

(** Lines 88-93. *)
Definition ws_onclose (c : World) : World :=
  scheduleReconnect (notifyConnectionChange false (set_connected false c)).

(** Lines 172-175: the callback of the reconnect timeout. *)
Definition reconnect_timeout (c : World) : World :=
  connect (set_reconnectTimer None c).

(** *** What can happen to a client *)

Inductive Event : Type :=
| Api (call : Call)                       (* a caller of the public methods *)
| AddCommandHandler (h : CommandHandler)
| AddConnectionHandler (h : ConnectionHandler)
| SocketOpen (id : nat)
| SocketMessage (id : nat) (data : option CommandMessage)
| SocketError (id : nat)
| SocketClose (id : nat)
| TimerFired (handle : nat).

Definition pending_timer (handle : nat) (c : World) : bool :=
  existsb (fun t => Nat.eqb (fst t) handle) (timers c).

(** An event the browser cannot produce in the state (an open event on a
    socket that is not connecting, a timeout that is not pending) leaves
    the state as it is. *)
Definition step (c : World) (ev : Event) : World :=
  match ev with
  | Api call => perform c call
  | AddCommandHandler h => onCommand h c
  | AddConnectionHandler h => onConnectionChange h c
  | SocketOpen id =>
      match sockets c !! id with
      | Some s =>
          if ReadyState_eqb (readyState s) CONNECTING then
            let c1 := update_socket id (WebSocket_set_readyState OPEN) c in
            if onopen s then ws_onopen c1 else c1
          else c
      | None => c
      end
  | SocketMessage id data =>
      match sockets c !! id with
      | Some s =>
          if ReadyState_eqb (readyState s) OPEN
             || ReadyState_eqb (readyState s) CLOSING then
            if onmessage s then ws_onmessage data c else c
          else c
      | None => c
      end
  | SocketError id =>
      match sockets c !! id with
      | Some s =>
          if ReadyState_eqb (readyState s) CLOSED then c
          else if onerror s then ws_onerror c else c
      | None => c
      end
  | SocketClose id =>
      match sockets c !! id with
      | Some s =>
          if ReadyState_eqb (readyState s) CLOSED then c
          else
            let c1 := update_socket id (WebSocket_set_readyState CLOSED) c in
            if onclose s then ws_onclose c1 else c1
      | None => c
      end
  | TimerFired handle =>
      if pending_timer handle c then
        reconnect_timeout (clearTimeout handle c)
      else c
  end.

Definition run (c : World) (evs : list Event) : World := fold_left step evs c.

End AvatarClient.

(** ** The chat page *)

Module Home.
Import JsString Regex Js.

(** *** Segmentation of the streamed reply *)

(** [.] without the [s] flag: any code unit but a line terminator. *)
Definition dot : cls := fun c => negb (is_line_terminator c).

Definition one_of (l : list code_unit) : cls :=
  fun c => existsb (N.eqb c) l.

(** [/^\[(.*?)\]/] *)
Definition tagPattern : re :=
  Cat (Cls (one_of [0x5B])) (Cat (Rep false 0 dot) (Cls (one_of [0x5D]))).

(** [[。．！？\n.!?]] *)
Definition sentence_end : cls :=
  one_of [0x3002; 0xFF0E; 0xFF01; 0xFF1F; 0x0A; 0x2E; 0x21; 0x3F].

(** [[、,]] *)
Definition comma : cls := one_of [0x3001; 0x2C].

(** [/^(.+[。．！？\n.!?]|.{10,}[、,])/] *)
Definition sentencePattern : re :=
  Alt (Cat (Rep true 1 dot) (Cls sentence_end))
      (Cat (Rep true 10 dot) (Cls comma)).

(** The brackets and quotation marks of the skip test, in the order of the
    source. *)
Definition bracket : cls :=
  one_of [0x5B; 0x28; 0x7B; 0x300C; 0xFF3B; 0xFF08; 0x3010; 0x300E; 0x3008;
          0x300A; 0x3014; 0xFF5B; 0xAB; 0x2039; 0x3018; 0x301A; 0x301B;
          0x3019; 0x203A; 0xBB; 0x3015; 0x300B; 0x3009; 0x300F; 0x3011;
          0xFF09; 0xFF3D; 0x300D; 0x7D; 0x29; 0x5D].

Definition space_or_bracket : cls := fun c => is_space c || bracket c.

(** [/^[\s\[\(\{「...」\}\)\]]+$/g] *)
Definition skipPattern : re := Cat (Rep true 1 space_or_bracket) Eoi.

(** [!sentence.replace(skipPattern, "")]: nothing is left to speak. *)
Definition unspeakable (sentence : str) : bool :=
  negb (truthy (replace_empty skipPattern sentence)).

(** Lines 226-227: [tagMatch && tagMatch[0]]. *)
Definition detectTag (receivedMessage : str) : option str :=
  match match0 tagPattern receivedMessage with
  | Some m => if truthy m then Some m else None
  | None => None
  end.

(** Lines 226-233: the tag in force and the buffer after the tag test. *)
Definition extractTag (tag receivedMessage : str) : str * str :=
  match detectTag receivedMessage with
  | Some m => (m, slice (length m) receivedMessage)
  | None => (tag, receivedMessage)
  end.

(** Lines 236-248: one unit is cut from the front of the buffer. *)
Definition extractSentence (receivedMessage : str) : option str * str :=
  match match0 sentencePattern receivedMessage with
  | Some sentence =>
      if truthy sentence then
        (Some sentence, trimStart (slice (length sentence) receivedMessage))
      else (None, receivedMessage)
  | None => (None, receivedMessage)
  end.

(** The local variables of [handleSendChat] that live across the reads of
    the stream. *)
Record Turn : Type := mkTurn {
  receivedMessage : str;
  aiTextLog : str;
  tag : str;
  sentences : list str;
}.

Definition newTurn : Turn :=
  {| receivedMessage := []; aiTextLog := []; tag := []; sentences := [] |}.

(** One call [handleSpeakAi(textsToScreenplay([aiText], koeiroParam)[0],
    elevenLabsKey, elevenLabsParam,
    () => setAssistantMessage(currentAssistantMessage))]. The screenplay is a
    function of [aiText] that lives outside the two source files, so the
    call is recorded by [aiText]; [sentence] is the unit it was built
    from. *)
Record Dispatch : Type := mkDispatch {
  sentence : str;
  aiText : str;
  currentAssistantMessage : str;
}.

(** What one pass of the loop body did. *)
Record Pass : Type := mkPass {
  detected : option str;      (* the tag matched at offset 0, if any *)
  extracted : option str;     (* the unit cut from the buffer, if any *)
  dispatched : option Dispatch;
}.

Definition space : str := [0x20].

(** Lines 220-269: the body of the read loop for one chunk [value]. *)
Definition onChunk (s : Turn) (value : str) : Turn * Pass :=
  let rm0 := receivedMessage s ++ value in
  let '(tag1, rm1) := extractTag (tag s) rm0 in
  match extractSentence rm1 with
  | (Some sentence, rm2) =>
      let sentences1 := sentences s ++ [sentence] in
      if unspeakable sentence then
        ({| receivedMessage := rm2; aiTextLog := aiTextLog s;
            tag := tag1; sentences := sentences1 |},
         {| detected := detectTag rm0; extracted := Some sentence;
            dispatched := None |})
      else
        let aiText := tag1 ++ space ++ sentence in
        ({| receivedMessage := rm2; aiTextLog := aiTextLog s ++ aiText;
            tag := tag1; sentences := sentences1 |},
         {| detected := detectTag rm0; extracted := Some sentence;
            dispatched :=
              Some {| sentence := sentence; aiText := aiText;
                      currentAssistantMessage := join space sentences1 |} |})
  | (None, rm2) =>
      ({| receivedMessage := rm2; aiTextLog := aiTextLog s;
          tag := tag1; sentences := sentences s |},
       {| detected := detectTag rm0; extracted := None;
          dispatched := None |})
  end.

(** The passes of the loop over the chunks a stream delivers. *)
Fixpoint readLoop (s : Turn) (chunks : list str) : Turn * list Pass :=
  match chunks with
  | [] => (s, [])
  | value :: rest =>
      let '(s1, p) := onChunk s value in
      let '(s2, ps) := readLoop s1 rest in
      (s2, p :: ps)
  end.

(** *** The state of the page *)

(** The calls the page makes on React's setters and on [speakCharacter],
    in the order it makes them. *)
Inductive Action : Type :=
| SetChatProcessing (b : bool)
| SetIsPlayingAudio (b : bool)
| SetIsAISpeaking (b : bool)
| SetAssistantMessage (m : str)
| SpeakCharacter (call : nat) (aiText : str).

(** The closure given to [websocketService.setLLMCallback] (lines
    296-317), with the three state variables it captured. *)
Record LLMCallback : Type := mkLLMCallback {
  seen_isAISpeaking : bool;
  seen_isPlayingAudio : bool;
  seen_chatProcessing : bool;
}.

Inductive Phase : Type := Idle | Opening | Reading.

Record State : Type := mkState {
  chatProcessing : bool;
  isPlayingAudio : bool;
  isAISpeaking : bool;
  assistantMessage : str;
  (** the callback currently registered with the websocket service *)
  llmCallback : LLMCallback;
  (** where the running [handleSendChat] is, and its locals *)
  phase : Phase;
  turn : Turn;
  (** the calls of [handleSpeakAi] so far, a call is named by its index *)
  calls : list Dispatch;
  (** the calls whose [speakCharacter] promise has not settled *)
  pending : list nat;
  log : list Action;
}.

Definition capture (s : State) : LLMCallback :=
  {| seen_isAISpeaking := isAISpeaking s;
     seen_isPlayingAudio := isPlayingAudio s;
     seen_chatProcessing := chatProcessing s |}.

Definition with_llmCallback (v : LLMCallback) (s : State) : State :=
  mkState (chatProcessing s) (isPlayingAudio s) (isAISpeaking s)
    (assistantMessage s) v (phase s) (turn s) (calls s) (pending s) (log s).
Definition with_phase (v : Phase) (s : State) : State :=
  mkState (chatProcessing s) (isPlayingAudio s) (isAISpeaking s)
    (assistantMessage s) (llmCallback s) v (turn s) (calls s) (pending s)
    (log s).
Definition with_turn (v : Turn) (s : State) : State :=
  mkState (chatProcessing s) (isPlayingAudio s) (isAISpeaking s)
    (assistantMessage s) (llmCallback s) (phase s) v (calls s) (pending s)
    (log s).
Definition with_pending (v : list nat) (s : State) : State :=
  mkState (chatProcessing s) (isPlayingAudio s) (isAISpeaking s)
    (assistantMessage s) (llmCallback s) (phase s) (turn s) (calls s) v
    (log s).

(** The effect of lines 295-318 has the three flags among its
    dependencies: after a render in which one of them changed, it
    registers a new callback that sees the new values. (Its fourth
    dependency, [handleSendChat], only makes it run more often.) *)
Definition deps_changed (old new : State) : bool :=
  negb (Bool.eqb (chatProcessing old) (chatProcessing new))
  || negb (Bool.eqb (isPlayingAudio old) (isPlayingAudio new))
  || negb (Bool.eqb (isAISpeaking old) (isAISpeaking new)).

Definition rerender (old new : State) : State :=
  if deps_changed old new then with_llmCallback (capture new) new else new.

Definition setChatProcessing (b : bool) (s : State) : State :=
  rerender s
    (mkState b (isPlayingAudio s) (isAISpeaking s) (assistantMessage s)
       (llmCallback s) (phase s) (turn s) (calls s) (pending s)
       (log s ++ [SetChatProcessing b])).
Definition setIsPlayingAudio (b : bool) (s : State) : State :=
  rerender s
    (mkState (chatProcessing s) b (isAISpeaking s) (assistantMessage s)
       (llmCallback s) (phase s) (turn s) (calls s) (pending s)
       (log s ++ [SetIsPlayingAudio b])).
Definition setIsAISpeaking (b : bool) (s : State) : State :=
  rerender s
    (mkState (chatProcessing s) (isPlayingAudio s) b (assistantMessage s)
       (llmCallback s) (phase s) (turn s) (calls s) (pending s)
       (log s ++ [SetIsAISpeaking b])).
Definition setAssistantMessage (m : str) (s : State) : State :=
  rerender s
    (mkState (chatProcessing s) (isPlayingAudio s) (isAISpeaking s) m
       (llmCallback s) (phase s) (turn s) (calls s) (pending s)
       (log s ++ [SetAssistantMessage m])).

(** The first render: lines 51-58 and the first run of the effects. *)
Definition mount : State :=
  {| chatProcessing := false; isPlayingAudio := false; isAISpeaking := false;
     assistantMessage := [];
     llmCallback := mkLLMCallback false false false;
     phase := Idle; turn := newTurn; calls := []; pending := []; log := [] |}.

(** *** The speech dispatcher, lines 132-165 *)

(** The call [speakCharacter(screenplay, ..., onStart, onEnd)]: the
    request is with the synthesis and playback capability, its promise is
    pending. *)
Definition speakCharacter (d : Dispatch) (s : State) : State :=
  mkState (chatProcessing s) (isPlayingAudio s) (isAISpeaking s)
    (assistantMessage s) (llmCallback s) (phase s) (turn s)
    (calls s ++ [d]) (pending s ++ [length (calls s)])
    (log s ++ [SpeakCharacter (length (calls s)) (aiText d)]).

(** [handleSpeakAi] up to its [await]. *)
Definition handleSpeakAi_call (d : Dispatch) : M State unit :=
  modify (setIsAISpeaking true) ;; modify (speakCharacter d).

(** [handleSpeakAi] from its [await] on, when the promise of
    [speakCharacter] has settled with [o]: the [catch] logs, the
    [finally] resets the flag. *)
Definition handleSpeakAi_resume (o : completion unit) : M State unit :=
  try_finally
    (try_catch (settled o) (fun error => ret tt))
    (modify (setIsAISpeaking false)).

(** The two callbacks [handleSpeakAi] passes to [speakCharacter], lines
    147-156; [onStart] is the closure of line 266, [onEnd] is absent. *)
Definition onPlaybackStart (d : Dispatch) : M State unit :=
  modify (setIsPlayingAudio true) ;;
  modify (setAssistantMessage (currentAssistantMessage d)).
Definition onPlaybackEnd : M State unit :=
  modify (setIsPlayingAudio false).

(** *** [handleSendChat], lines 170-288 *)

(** Up to [await getChatResponseStream(...)]. *)
Definition handleSendChat_call : M State unit :=
  modify (setChatProcessing true) ;; modify (with_phase Opening).

(** Lines 205-214: without a stream the turn ends, with one the loop
    starts on fresh locals. *)
Definition handleSendChat_stream (stream : bool) : M State unit :=
  if stream then modify (with_turn newTurn) ;; modify (with_phase Reading)
  else modify (setChatProcessing false) ;; modify (with_phase Idle).

(** Lines 220-269 for the chunk [value]; [handleSpeakAi] is called and not
    awaited. *)
Definition loopBody (value : str) : M State unit :=
  fun s =>
    let '(t1, p) := onChunk (turn s) value in
    match dispatched p with
    | Some d => handleSpeakAi_call d (with_turn t1 s)
    | None => (Normal tt, with_turn t1 s)
    end.

(** Lines 271-285, when the loop has ended with [o]: by [break] at the end
    of the stream, or by an exception of [reader.read()]. *)
Definition handleSendChat_finish (o : completion unit) : M State unit :=
  try_finally
    (try_catch (settled o) (fun e => modify (setChatProcessing false)))
    (ret tt) ;;
  modify (setChatProcessing false) ;;
  modify (with_phase Idle).

(** *** One turn and the speech it starts *)

Inductive Event : Type :=
| ReadChunk (value : str)          (* [reader.read()] gives a chunk *)
| ReadDone                         (* ... or the end of the stream *)
| ReadError (e : exn)              (* ... or fails *)
| PlaybackStart (call : nat)       (* [speakCharacter] calls back *)
| PlaybackEnd (call : nat)
| Settle (call : nat) (o : completion unit).

Definition is_pending (call : nat) (s : State) : bool :=
  existsb (Nat.eqb call) (pending s).

Definition forget (call : nat) (s : State) : State :=
  with_pending (filter (fun i => i ≠ call) (pending s)) s.

(** The reads of the stream happen while the turn is reading, the events of
    a call while its promise is pending; an event out of place leaves the
    state as it is. An exception that escapes is an unhandled rejection:
    the state stays. *)
Definition step (s : State) (ev : Event) : State :=
  match ev with
  | ReadChunk value =>
      match phase s with
      | Reading => effect (loopBody value) s
      | _ => s
      end
  | ReadDone =>
      match phase s with
      | Reading => effect (handleSendChat_finish (Normal tt)) s
      | _ => s
      end
  | ReadError e =>
      match phase s with
      | Reading => effect (handleSendChat_finish (Throw e)) s
      | _ => s
      end
  | PlaybackStart call =>
      match calls s !! call with
      | Some d => if is_pending call s then effect (onPlaybackStart d) s else s
      | None => s
      end
  | PlaybackEnd call =>
      if is_pending call s then effect onPlaybackEnd s else s
  | Settle call o =>
      if is_pending call s then effect (handleSpeakAi_resume o) (forget call s)
      else s
  end.

Definition run (s : State) (evs : list Event) : State := fold_left step evs s.

(** The page when the stream of a new turn has just been obtained. *)
Definition startTurn (s : State) : State :=
  effect (handleSendChat_call ;; handleSendChat_stream true) s.

(** The chunks a list of events delivers to the loop. *)
Fixpoint chunks (evs : list Event) : list str :=
  match evs with
  | [] => []
  | ReadChunk value :: rest => value :: chunks rest
  | ReadDone :: _ | ReadError _ :: _ => []
  | _ :: rest => chunks rest
  end.

Definition dispatches (ps : list Pass) : list Dispatch :=
  omap dispatched ps.

(** *** The callback of the websocket service, lines 296-317 *)

Record LLMCallbackResult : Type := mkResult {
  processed : bool;
  error : option string;
}.

(** The callback is an [async] function: it either returns at once or
    stops at [await handleSendChat(message)]. *)
Inductive Suspension : Type :=
| Return (r : LLMCallbackResult)
| AwaitHandleSendChat (message : str).

Definition llmCallback_call (c : LLMCallback) (message : str) : Suspension :=
  if seen_isAISpeaking c || seen_isPlayingAudio c || seen_chatProcessing c
  then
    Return {| processed := false;
              error := Some "System is busy processing previous message"%string |}
  else AwaitHandleSendChat message.

(** From the [await] on, when [handleSendChat] has settled with [o]. *)
Definition llmCallback_resume (o : completion unit) : LLMCallbackResult :=
  match o with
  | Normal _ => {| processed := true; error := None |}
  | Throw (Error message) => {| processed := false; error := Some message |}
  | Throw Thrown =>
      {| processed := false; error := Some "Unknown error occurred"%string |}
  end.

(** *** The avatar client of the page, lines 327-438 *)

(** The handler given to [client.onCommand]. It is created once, in an
    effect whose only dependency is [viewer] (line 438), and sees the
    [isAISpeaking] of the render that created it. The branches that only
    drive the viewer make no call on the client. *)
Definition onCommand (isAISpeaking : bool) : AvatarClient.CommandHandler :=
  fun command =>
    let ty := AvatarClient.type command in
    if (ty =? "speak")%string || (ty =? "startSpeaking")%string then []
    else if (ty =? "setExpression")%string || (ty =? "updateExpression")%string
    then []
    else if (ty =? "setIdle")%string then []
    else if (ty =? "getStatus")%string then
      [AvatarClient.Send
         [("type", AvatarClient.JString "status");
          ("connected", AvatarClient.JBool true);
          ("speaking", AvatarClient.JBool isAISpeaking);
          ("expression", AvatarClient.JString "neutral")]%string]
    else if (ty =? "identifyAck")%string || (ty =? "initialState")%string
    then []
    else [].

(** The handler given to [client.onConnectionChange]: [setWsConnected]. *)
Definition onConnectionChange : AvatarClient.ConnectionHandler :=
  fun connected => [].

(** The body of the effect, run in the render whose state is [s]. *)
Definition avatarEffect (s : State) (constructible : bool) : AvatarClient.World :=
  AvatarClient.connect
    (AvatarClient.onConnectionChange onConnectionChange
       (AvatarClient.onCommand (onCommand (isAISpeaking s))
          (AvatarClient.new "ws://localhost:8765" constructible))).

End Home.

(** ** The vocabulary of the statements *)

Module Spec.
Import JsString Regex.

(** One or more characters followed by a sentence-terminal character. *)
Definition terminated_unit (u : str) : Prop :=
  exists body c,
    u = body ++ [c] /\ (1 <= length body)%nat /\ Home.sentence_end c = true.

(** At least 10 characters followed by a comma-class separator. *)
Definition comma_unit (u : str) : Prop :=
  exists body c,
    u = body ++ [c] /\ (10 <= length body)%nat /\ Home.comma c = true.

(** [out] is [rest] without its leading white space. *)
Definition left_trimmed (rest out : str) : Prop :=
  exists ws,
    rest = ws ++ out /\ Forall (fun c => is_space c = true) ws /\
    forall c s, out = c :: s -> is_space c = false.

(** A string made of white space, brackets and quotation marks only. *)
Definition bracket_only (u : str) : Prop :=
  Forall (fun c => Home.space_or_bracket c = true) u.

(** A bracketed tag: [[], characters without a line end, []]. *)
Definition bracketed (t : str) : Prop :=
  exists body, t = [0x5B] ++ body ++ [0x5D].




(** The refusal the specification words: [{processed: false, error:
    "system busy"}]. *)
Definition system_busy : Home.LLMCallbackResult :=
  {| Home.processed := false; Home.error := Some "system busy"%string |}.

(** The gate in the specification's words: a message is refused with
    [system_busy] exactly when one of the three flags is set. *)
Definition busy_gate_as_specified : Prop :=
  forall (c : Home.LLMCallback) (message : str),
    Home.llmCallback_call c message = Home.Return system_busy <->
    (Home.seen_chatProcessing c = true \/ Home.seen_isAISpeaking c = true \/
     Home.seen_isPlayingAudio c = true).

(** The refusal the page words. *)
Definition busy_refusal : Home.LLMCallbackResult :=
  {| Home.processed := false;
     Home.error := Some "System is busy processing previous message"%string |}.

(** The registered callback sees the flags of the current render. *)
Definition callback_is_current (s : Home.State) : Prop :=
  Home.llmCallback s = Home.capture s.

(** The inbound frame [{"type": "getStatus"}]. *)
Definition getStatus : AvatarClient.CommandMessage :=
  {| AvatarClient.type := "getStatus"; AvatarClient.fields := [] |}.

(** The reply [{type: "status", connected: true, speaking, expression:
    "neutral"}]. *)
Definition status_frame (speaking : bool) : AvatarClient.Json :=
  [("type", AvatarClient.JString "status");
   ("connected", AvatarClient.JBool true);
   ("speaking", AvatarClient.JBool speaking);
   ("expression", AvatarClient.JString "neutral")]%string.

(** The pending timeouts of a client are its reconnect timer, if it has
    one, with the reconnect delay. *)
Definition one_timer (w : AvatarClient.World) : Prop :=
  AvatarClient.timers w
  = match AvatarClient.reconnectTimer w with
    | Some h => [(h, AvatarClient.reconnectInterval)]
    | None => []
    end.

(** The socket of the client is one it has constructed. *)
Definition ws_exists (w : AvatarClient.World) : Prop :=
  forall id, AvatarClient.ws w = Some id ->
             (id < length (AvatarClient.sockets w))%nat.

Definition inv (w : AvatarClient.World) : Prop := one_timer w /\ ws_exists w.

(** The four callbacks of a socket are [null]. *)
Definition all_null (s : AvatarClient.WebSocket) : Prop :=
  AvatarClient.onopen s = false /\ AvatarClient.onmessage s = false /\
  AvatarClient.onerror s = false /\ AvatarClient.onclose s = false.

Definition detached (id : nat) (w : AvatarClient.World) : Prop :=
  exists s, AvatarClient.sockets w !! id = Some s /\ all_null s.

(** A destroyed client without a socket. *)
Definition dead (w : AvatarClient.World) : Prop :=
  AvatarClient.destroyed w = true /\ AvatarClient.ws w = None.

(** What no method and no event undoes: a dead client stays dead and
    constructs no socket, a detached socket stays detached. *)
Definition later (w w' : AvatarClient.World) : Prop :=
  (dead w ->
   dead w' /\
   length (AvatarClient.sockets w') = length (AvatarClient.sockets w)) /\
  (forall id, detached id w -> detached id w').

(** [close()] has been called on socket [id]. *)
Definition closing (id : nat) (w : AvatarClient.World) : Prop :=
  exists s,
    AvatarClient.sockets w !! id = Some s /\
    (AvatarClient.readyState s = AvatarClient.CLOSING \/
     AvatarClient.readyState s = AvatarClient.CLOSED).

(** The socket an event comes from. *)
Definition socket_of (ev : AvatarClient.Event) : option nat :=
  match ev with
  | AvatarClient.SocketOpen id | AvatarClient.SocketMessage id _
  | AvatarClient.SocketError id | AvatarClient.SocketClose id => Some id
  | _ => None
  end.

(** The client object alone: the world with the sockets put aside. *)
Definition client_of (w : AvatarClient.World) : AvatarClient.World :=
  AvatarClient.set_sockets [] w.

End Spec.

(** ** The chat log of the page *)

Module ChatLog.
Import JsString.

(** A [Message] of the chat log: a role and a content. *)
Record Message : Type := mkMessage {
  role : string;
  content : str;
}.

(** Lines 118-127: the log [handleChangeChatLog(targetIndex, text)] gives to
    [setChatLog]. The indices of [map] are 0, 1, ...; [targetIndex] is
    compared with [===], so a number that is no index of the log (negative,
    too large) equals none of them. *)
Definition handleChangeChatLog
  (chatLog : list Message) (targetIndex : Z) (text : str) : list Message :=
  imap (fun i v =>
          if (Z.of_nat i =? targetIndex)%Z
          then {| role := role v; content := text |}
          else v)
       chatLog.

(** Lines 177-180: [[...chatLog, { role: "user", content: newMessage }]]. *)
Definition messageLog (chatLog : list Message) (newMessage : str)
  : list Message :=
  chatLog ++ [{| role := "user"; content := newMessage |}].

(** Lines 279-282: [[...messageLog, { role: "assistant", content:
    aiTextLog }]]. *)
Definition messageLogAssistant
  (chatLog : list Message) (newMessage aiTextLog : str) : list Message :=
  messageLog chatLog newMessage
  ++ [{| role := "assistant"; content := aiTextLog |}].

End ChatLog.

(** ** More vocabulary *)

Module Facts.
Import JsString Regex.

(** A prefix [u] of [buf] made of at least [lo] characters that are not line
    terminators and of one closing character of the class [q]. *)
Definition candidate (q : cls) (lo : nat) (buf u : str) : Prop :=
  exists body c rest,
    u = body ++ [c] /\ buf = u ++ rest /\
    Forall (fun c => Home.dot c = true) body /\
    (lo <= length body)%nat /\ q c = true.

Definition sentence_candidate : str -> str -> Prop :=
  candidate Home.sentence_end 1.
Definition comma_candidate : str -> str -> Prop :=
  candidate Home.comma 10.

(** What a pass took from the stream: the tag, the unit and the white space
    trimmed after the unit. *)
Definition consumed (p : Home.Pass) (gap : str) : str :=
  default [] (Home.detected p) ++ default [] (Home.extracted p) ++ gap.

(** A pass that found nothing. *)
Definition idle_pass (p : Home.Pass) : Prop :=
  Home.detected p = None /\ Home.extracted p = None /\
  Home.dispatched p = None.

(** The turn is reading with [chatProcessing] set, or it is over with
    [chatProcessing] clear. *)
Definition turn_flag (s : Home.State) : Prop :=
  (Home.phase s = Home.Reading /\ Home.chatProcessing s = true) \/
  (Home.phase s = Home.Idle /\ Home.chatProcessing s = false).

(** *** The avatar client *)

(** A handler that calls nothing but [send]. *)
Definition is_send (c : AvatarClient.Call) : Prop :=
  match c with AvatarClient.Send _ => True | _ => False end.

Definition sends_only {A} (h : A -> list AvatarClient.Call) : Prop :=
  forall x, Forall is_send (h x).

Definition quiet (w : AvatarClient.World) : Prop :=
  Forall sends_only (AvatarClient.commandHandlers w) /\
  Forall sends_only (AvatarClient.connectionHandlers w).

(** What happens to a client whose user calls [connect()] once and leaves
    the reconnections to the client: every event but a call of
    [connect()], with handlers that only send. *)
Definition hands_off (ev : AvatarClient.Event) : Prop :=
  match ev with
  | AvatarClient.Api AvatarClient.Connect => False
  | AvatarClient.AddCommandHandler h => sends_only h
  | AvatarClient.AddConnectionHandler h => sends_only h
  | _ => True
  end.

(** A socket that is connecting or open. *)
Definition live (s : AvatarClient.WebSocket) : Prop :=
  AvatarClient.readyState s = AvatarClient.CONNECTING \/
  AvatarClient.readyState s = AvatarClient.OPEN.

(** A socket without what it has sent. *)
Definition shape (s : AvatarClient.WebSocket)
  : AvatarClient.ReadyState * bool * bool * bool * bool :=
  (AvatarClient.readyState s, AvatarClient.onopen s, AvatarClient.onmessage s,
   AvatarClient.onerror s, AvatarClient.onclose s).

(** Two worlds that differ at most in the frames their sockets have sent. *)
Definition alike (w w' : AvatarClient.World) : Prop :=
  Spec.client_of w = Spec.client_of w' /\
  map shape (AvatarClient.sockets w) = map shape (AvatarClient.sockets w').

(** The socket of the client, if it has one, is closed. *)
Definition ws_closed (w : AvatarClient.World) : Prop :=
  forall id s,
    AvatarClient.ws w = Some id -> AvatarClient.sockets w !! id = Some s ->
    AvatarClient.readyState s = AvatarClient.CLOSED.

(** The state of a client left to itself: its timer is its only timeout,
    its handlers only send, every socket but the current one is closed (or
    detached and closing), and no timer is pending unless the current
    socket is closed. *)
Definition tidy (w : AvatarClient.World) : Prop :=
  Spec.inv w /\ quiet w /\
  (forall id s,
      AvatarClient.sockets w !! id = Some s -> AvatarClient.ws w <> Some id ->
      AvatarClient.readyState s = AvatarClient.CLOSED \/
      (AvatarClient.readyState s = AvatarClient.CLOSING /\ Spec.all_null s)) /\
  (is_Some (AvatarClient.reconnectTimer w) -> ws_closed w).

(** A client on which [connect()] has not been called yet. *)
Definition unconnected (w : AvatarClient.World) : Prop :=
  AvatarClient.sockets w = [] /\ AvatarClient.ws w = None /\
  AvatarClient.reconnectTimer w = None /\ AvatarClient.timers w = [] /\
  quiet w.

(** A handler that calls nothing. *)
Definition silent {A} (h : A -> list AvatarClient.Call) : Prop :=
  forall x, h x = [].

(** A handler that only sends, and only frames that satisfy [P]. *)
Definition sends_frames {A} (P : AvatarClient.Json -> Prop)
  (h : A -> list AvatarClient.Call) : Prop :=
  forall x,
    Forall (fun c => match c with AvatarClient.Send m => P m | _ => False end)
      (h x).

(** The command handlers send frames that satisfy [P], the connection
    handlers call nothing. *)
Definition polite (P : AvatarClient.Json -> Prop) (w : AvatarClient.World)
  : Prop :=
  Forall (sends_frames P) (AvatarClient.commandHandlers w) /\
  Forall silent (AvatarClient.connectionHandlers w).

Definition courteous (P : AvatarClient.Json -> Prop) (ev : AvatarClient.Event)
  : Prop :=
  match ev with
  | AvatarClient.Api AvatarClient.Connect => False
  | AvatarClient.Api (AvatarClient.Send m) => P m
  | AvatarClient.AddCommandHandler h => sends_frames P h
  | AvatarClient.AddConnectionHandler h => silent h
  | _ => True
  end.

(** A socket that has sent nothing, or the identification and then frames
    that satisfy [P]. *)
Definition greeted (P : AvatarClient.Json -> Prop) (s : AvatarClient.WebSocket)
  : Prop :=
  AvatarClient.sent s = [] \/
  exists rest,
    AvatarClient.sent s = AvatarClient.identify :: rest /\ Forall P rest.

(** The frames of a client: every socket is greeted and has sent nothing
    while it is connecting; the current socket has its [onopen] installed
    and, once open, has sent the identification. *)
Definition orderly (P : AvatarClient.Json -> Prop) (w : AvatarClient.World)
  : Prop :=
  polite P w /\
  (forall id s,
      AvatarClient.sockets w !! id = Some s ->
      greeted P s /\
      (AvatarClient.readyState s = AvatarClient.CONNECTING ->
       AvatarClient.sent s = [])) /\
  (forall id s,
      AvatarClient.ws w = Some id -> AvatarClient.sockets w !! id = Some s ->
      AvatarClient.onopen s = true /\
      (AvatarClient.readyState s = AvatarClient.OPEN ->
       AvatarClient.sent s <> [])).

(** What happens to the client of the page: the events of its sockets and
    of its timer, and the [disconnect()] of the effect's cleanup. The page
    calls [connect()] once, in the effect, and never [send()] but in its
    command handler. *)
Definition of_the_page (ev : AvatarClient.Event) : Prop :=
  match ev with
  | AvatarClient.Api AvatarClient.Disconnect => True
  | AvatarClient.Api _ => False
  | AvatarClient.AddCommandHandler _ => False
  | AvatarClient.AddConnectionHandler _ => False
  | _ => True
  end.

(** A client that cannot construct a socket and never had one. *)
Definition never_connected (w : AvatarClient.World) : Prop :=
  AvatarClient.constructible w = false /\ AvatarClient.sockets w = [] /\
  AvatarClient.ws w = None /\ AvatarClient.connected w = false.

End Facts.

Import JsString Regex Js.

(** * Properties *)

(** ** The matcher against what the patterns denote *)

Section RegexFacts.

Implicit Types (r : re) (s u v : str) (k : cont) (p : cls).

Lemma many_sound g p s k x :
  many g p s k = Some x ->
  exists u v, s = u ++ v /\ Forall (fun c => p c = true) u /\ k v = Some x.
Proof.
  induction s as [|c s IH]; simpl; intros H.
  - exists [], []. auto.
  - destruct (p c) eqn:Hc.
    + assert (Hrec : many g p s k = Some x ->
              exists u v, c :: s = u ++ v /\
                Forall (fun c => p c = true) u /\ k v = Some x).
      { intros Hm. destruct (IH Hm) as (u & v & -> & Hu & Hk).
        exists (c :: u), v. auto. }
      assert (Hstop : k (c :: s) = Some x ->
              exists u v, c :: s = u ++ v /\
                Forall (fun c => p c = true) u /\ k v = Some x).
      { intros Hk. exists [], (c :: s). auto. }
      destruct g.
      * destruct (many true p s k) eqn:Hm; [inversion H; subst; auto | auto].
      * destruct (k (c :: s)) eqn:Hk; [inversion H; subst; auto | auto].
    + exists [], (c :: s). auto.
Qed.

Lemma at_least_sound g p lo s k x :
  at_least g p lo s k = Some x ->
  exists u v, s = u ++ v /\ Forall (fun c => p c = true) u /\
              (lo <= length u)%nat /\ k v = Some x.
Proof.
  revert s. induction lo as [|lo IH]; simpl; intros s H.
  - destruct (many_sound _ _ _ _ _ H) as (u & v & ? & ? & ?).
    exists u, v. repeat split; auto. lia.
  - destruct s as [|c s]; [discriminate|].
    destruct (p c) eqn:Hc; [|discriminate].
    destruct (IH _ H) as (u & v & -> & Hu & Hlen & Hk).
    exists (c :: u), v. repeat split; auto. simpl. lia.
Qed.

Lemma run_sound r : forall s k x,
  run r s k = Some x ->
  exists u v, s = u ++ v /\ lang r u v /\ k v = Some x.
Proof.
  induction r as [p | g lo p | r1 IH1 r2 IH2 | r1 IH1 r2 IH2 | ];
    simpl; intros s k x H.
  - destruct s as [|c s]; [discriminate|].
    destruct (p c) eqn:Hc; [|discriminate].
    exists [c], s. repeat split; auto. by constructor.
  - destruct (at_least_sound _ _ _ _ _ _ H) as (u & v & ? & ? & ? & ?).
    exists u, v. repeat split; auto. by constructor.
  - destruct (IH1 _ _ _ H) as (u1 & v1 & -> & L1 & H2).
    destruct (IH2 _ _ _ H2) as (u2 & v2 & -> & L2 & Hk).
    exists (u1 ++ u2), v2. rewrite <- app_assoc.
    repeat split; auto. by constructor.
  - destruct (run r1 s k) eqn:H1.
    + inversion H; subst.
      destruct (IH1 _ _ _ H1) as (u & v & ? & ? & ?).
      exists u, v. repeat split; auto. by apply lang_alt_l.
    + destruct (IH2 _ _ _ H) as (u & v & ? & ? & ?).
      exists u, v. repeat split; auto. by apply lang_alt_r.
  - destruct s; [|discriminate].
    exists [], []. repeat split; auto. constructor.
Qed.

Lemma exec_sound r s rest :
  exec r s = Some rest -> exists u, s = u ++ rest /\ lang r u rest.
Proof.
  unfold exec. intros H.
  destruct (run_sound _ _ _ _ H) as (u & v & -> & L & Hk).
  inversion Hk; subst. eauto.
Qed.

Lemma take_prefix u v : take (length (u ++ v) - length v) (u ++ v) = u.
Proof.
  rewrite length_app.
  replace (length u + length v - length v)%nat with (length u) by lia.
  by rewrite take_app_length.
Qed.

Lemma match0_sound r s m :
  match0 r s = Some m -> exists rest, s = m ++ rest /\ lang r m rest.
Proof.
  unfold match0. destruct (exec r s) as [rest|] eqn:H; [|discriminate].
  intros Hm. inversion Hm; subst; clear Hm.
  destruct (exec_sound _ _ _ H) as (u & -> & L).
  rewrite take_prefix. eauto.
Qed.

(** Backtracking finds a match whenever the pattern has one. *)
Lemma many_complete g p u v k y :
  Forall (fun c => p c = true) u -> k v = Some y ->
  exists x, many g p (u ++ v) k = Some x.
Proof.
  intros Hu Hk. induction Hu as [|c u Hc Hu IH]; simpl.
  - destruct v as [|c v]; simpl; [eauto|].
    destruct (p c); [|eauto].
    destruct g.
    + destruct (many true p v k); eauto.
    + rewrite Hk. eauto.
  - rewrite Hc. destruct IH as [x IH]. destruct g.
    + rewrite IH. eauto.
    + destruct (k (c :: u ++ v)); eauto.
Qed.

Lemma at_least_complete g p lo u v k y :
  Forall (fun c => p c = true) u -> (lo <= length u)%nat -> k v = Some y ->
  exists x, at_least g p lo (u ++ v) k = Some x.
Proof.
  intros Hu. revert lo. induction Hu as [|c u Hc Hu IH]; intros lo Hlo Hk.
  - simpl in Hlo. assert (lo = 0%nat) as -> by lia. simpl.
    by apply (many_complete g p [] v k y).
  - destruct lo as [|lo]; simpl.
    + rewrite Hc.
      destruct (many_complete g p u v k y Hu Hk) as [x Hx]. destruct g.
      * rewrite Hx. eauto.
      * destruct (k (c :: u ++ v)); eauto.
    + rewrite Hc. apply IH; [simpl in Hlo; lia | done].
Qed.

Lemma run_complete r u v :
  lang r u v -> forall k y, k v = Some y -> exists x, run r (u ++ v) k = Some x.
Proof.
  induction 1 as [p c v Hc | g lo p u v Hu Hlo | r1 r2 u1 u2 v L1 IH1 L2 IH2
                 | r1 r2 u v L IH | r1 r2 u v L IH | ]; intros k y Hk; simpl.
  - rewrite Hc. eauto.
  - by apply (at_least_complete g p lo u v k y).
  - destruct (IH2 k y Hk) as [x2 H2].
    rewrite <- app_assoc.
    by apply (IH1 (fun s1 => run r2 s1 k) x2).
  - destruct (IH k y Hk) as [x ->]. eauto.
  - destruct (run r1 (u ++ v) k); eauto.
  - eauto.
Qed.

Lemma match0_complete r u v :
  lang r u v -> exists m, match0 r (u ++ v) = Some m.
Proof.
  intros L. unfold match0, exec.
  destruct (run_complete _ _ _ L Some v eq_refl) as [x ->]. eauto.
Qed.

(** A greedy run of a class over a string made of it reaches the end. *)
Lemma many_all p s k :
  Forall (fun c => p c = true) s -> is_Some (k []) -> many true p s k = k [].
Proof.
  intros Hs [y Hk]. induction Hs as [|c s Hc Hs IH]; simpl; [done|].
  rewrite Hc, IH, Hk. done.
Qed.

Lemma at_least_all p lo s k :
  Forall (fun c => p c = true) s -> (lo <= length s)%nat -> is_Some (k []) ->
  at_least true p lo s k = k [].
Proof.
  intros Hs. revert lo. induction Hs as [|c s Hc Hs IH]; intros lo Hlo Hk.
  - simpl in Hlo. by assert (lo = 0%nat) as -> by lia.
  - destruct lo as [|lo]; simpl.
    + rewrite Hc, (many_all p s k Hs Hk). by destruct Hk as [y ->].
    + rewrite Hc. apply IH; [simpl in Hlo; lia | done].
Qed.

End RegexFacts.

(** ** Segmentation *)

Section Segmentation.
Import Home Spec.

Lemma trimStart_left_trimmed (s : str) : left_trimmed s (trimStart s).
Proof.
  induction s as [|c s (ws & Hs & Hws & Hhd)]; simpl.
  - exists []. repeat split; auto. intros; discriminate.
  - destruct (is_space c) eqn:Hc.
    + exists (c :: ws). repeat split; auto. simpl. by f_equal.
    + exists []. repeat split; auto. intros c' s' E. by inversion E; subst.
Qed.

Lemma lang_nonempty_cat_cls r p u v : lang (Cat r (Cls p)) u v -> u <> [].
Proof.
  inversion 1 as [| |? ? u1 u2 ? L1 L2| | |]; subst.
  inversion L2; subst. by destruct u1.
Qed.

(** What the sentence pattern matches, with what the code adds to the
    words of the specification: the characters before the closing mark are
    not line terminators. *)
Lemma sentencePattern_lang (m rest : str) :
  lang sentencePattern m rest ->
  exists body c,
    m = body ++ [c] /\ Forall (fun c => dot c = true) body /\
    ((1 <= length body)%nat /\ sentence_end c = true \/
     (10 <= length body)%nat /\ comma c = true).
Proof.
  unfold sentencePattern. intros L.
  inversion L as [| | |? ? ? ? La|? ? ? ? Lb|]; subst.
  - inversion La as [| |? ? u1 u2 ? L1 L2| | |]; subst.
    inversion L1; subst. inversion L2; subst. eauto 10.
  - inversion Lb as [| |? ? u1 u2 ? L1 L2| | |]; subst.
    inversion L1; subst. inversion L2; subst. eauto 10.
Qed.

Lemma sentencePattern_unit (m rest : str) :
  lang sentencePattern m rest -> terminated_unit m \/ comma_unit m.
Proof.
  intros L. destruct (sentencePattern_lang _ _ L) as (body & c & -> & _ & H).
  destruct H as [[? ?]|[? ?]]; [left | right]; by exists body, c.
Qed.

Lemma truthy_nonempty (s : str) : s <> [] -> truthy s = true.
Proof. by destruct s. Qed.

Lemma extractSentence_some (buf u out : str) :
  extractSentence buf = (Some u, out) ->
  exists rest,
    buf = u ++ rest /\ out = trimStart rest /\ u <> [] /\
    lang sentencePattern u rest.
Proof.
  unfold extractSentence.
  destruct (match0 sentencePattern buf) as [m|] eqn:Hm; [|discriminate].
  destruct (match0_sound _ _ _ Hm) as (rest & -> & L).
  destruct (truthy m) eqn:Ht; [|discriminate].
  intros E. inversion E; subst; clear E.
  exists rest. unfold slice. rewrite drop_app_length.
  repeat split; auto. by destruct u.
Qed.

Lemma extractSentence_none (buf out : str) :
  extractSentence buf = (None, out) -> out = buf.
Proof.
  unfold extractSentence.
  destruct (match0 sentencePattern buf) as [m|]; [|by inversion 1].
  destruct (truthy m); by inversion 1.
Qed.

(** The step finds a unit whenever the buffer starts with one the pattern
    denotes. *)
Lemma extractSentence_finds (u rest : str) :
  lang sentencePattern u rest ->
  exists u' out, extractSentence (u ++ rest) = (Some u', out).
Proof.
  intros L. unfold extractSentence.
  destruct (match0_complete _ _ _ L) as [m Hm]. rewrite Hm.
  destruct (match0_sound _ _ _ Hm) as (rest' & _ & L').
  assert (m <> []) as Hne.
  { unfold sentencePattern in L'.
    inversion L'; subst; eauto using lang_nonempty_cat_cls. }
  rewrite (truthy_nonempty _ Hne). eauto.
Qed.

(** A prefix of the buffer in one of the two forms, for the pattern. *)
Lemma candidate_lang (buf u : str) :
  Facts.sentence_candidate buf u \/ Facts.comma_candidate buf u ->
  exists rest, buf = u ++ rest /\ lang sentencePattern u rest.
Proof.
  intros [(body & c & rest & -> & -> & Hb & Hlo & Hq)
         |(body & c & rest & -> & -> & Hb & Hlo & Hq)];
    exists rest; (split; [done|]).
  - apply lang_alt_l. constructor; by constructor.
  - apply lang_alt_r. constructor; by constructor.
Qed.

(** C1, as stated, fails on the page: the characters of a unit before its
    closing mark are matched by [.], which matches no line terminator. The
    buffers LF [Hello.] and [a] CR [b.] are each one or more characters
    followed by a sentence-terminal character, and the step extracts
    nothing from them. *)
Lemma C1_line_end_in_a_unit :
  (terminated_unit (0x0A :: lit "Hello.") /\
   extractSentence (0x0A :: lit "Hello.") = (None, 0x0A :: lit "Hello.")) /\
  (terminated_unit (lit "a" ++ 0x0D :: lit "b.") /\
   extractSentence (lit "a" ++ 0x0D :: lit "b.")
   = (None, lit "a" ++ 0x0D :: lit "b.")).
Proof.
  split; split; try (vm_compute; reflexivity).
  - exists (0x0A :: lit "Hello"), 0x2E. vm_compute. repeat split; lia.
  - exists (lit "a" ++ 0x0D :: lit "b"), 0x2E. vm_compute. repeat split; lia.
Qed.

(** C1, amended. One segmentation step on a buffer extracts at most one
    leading unit. An extracted unit is a prefix of the buffer made of one
    or more characters, none of them a line terminator, followed by a
    sentence-terminal character, or of at least 10 such characters followed
    by a comma-class separator; it is removed from the front of the buffer
    and what follows it is left-trimmed of white space. The step extracts a
    unit whenever the buffer has such a prefix: when it extracts nothing
    the buffer has none, and the buffer is unchanged. *)
Theorem C1_segmentation_step (buf : str) :
  match extractSentence buf with
  | (Some u, out) =>
      (Facts.sentence_candidate buf u \/ Facts.comma_candidate buf u) /\
      exists rest, buf = u ++ rest /\ left_trimmed rest out
  | (None, out) =>
      out = buf /\
      forall u,
        ~ Facts.sentence_candidate buf u /\ ~ Facts.comma_candidate buf u
  end.
Proof.
  destruct (extractSentence buf) as [[u|] out] eqn:E.
  - destruct (extractSentence_some _ _ _ E) as (rest & -> & -> & _ & L).
    split.
    + destruct (sentencePattern_lang _ _ L) as (body & c & -> & Hb & H).
      destruct H as [[Hlo Hq]|[Hlo Hq]]; [left | right];
        by exists body, c, rest.
    + exists rest. split; [done | apply trimStart_left_trimmed].
  - split; [by eapply extractSentence_none|].
    assert (forall u,
               ~ (Facts.sentence_candidate buf u \/
                  Facts.comma_candidate buf u)) as Hno.
    { intros u Hu. destruct (candidate_lang buf u Hu) as (rest & -> & L).
      destruct (extractSentence_finds u rest L) as (u' & out' & E').
      congruence. }
    intros u. split; intros Hu; apply (Hno u); [by left | by right].
Qed.

(** A buffer that starts with a line end never yields a unit: [.] does not
    match a line terminator, and the pattern is anchored. *)
Example newline_first :
  extractSentence (0x0A :: lit "Hello.") = (None, 0x0A :: lit "Hello.").
Proof. vm_compute. reflexivity. Qed.

Example hello_world :
  map dispatched (snd (readLoop newTurn [lit "Hello world. "; lit "How are you?"]))
  = [ Some {| sentence := lit "Hello world.";
              aiText := lit " Hello world.";
              currentAssistantMessage := lit "Hello world." |};
      Some {| sentence := lit "How are you?";
              aiText := lit " How are you?";
              currentAssistantMessage := lit "Hello world. How are you?" |} ].
Proof. vm_compute. reflexivity. Qed.

(** *** Units with nothing to speak *)

Lemma bracket_only_unspeakable (u : str) :
  bracket_only u -> u <> [] -> unspeakable u = true.
Proof.
  intros Hall Hne. unfold unspeakable, replace_empty, exec, skipPattern.
  change (Regex.run (Cat (Rep true 1 space_or_bracket) Eoi) u Some)
    with (at_least true space_or_bracket 1 u
            (fun s1 => Regex.run Eoi s1 Some)).
  rewrite (at_least_all space_or_bracket 1 u _ Hall); simpl; auto.
  destruct u; [done | simpl; lia].
Qed.

Lemma unspeakable_bracket_only (u : str) :
  unspeakable u = true -> bracket_only u.
Proof.
  unfold unspeakable, replace_empty.
  destruct (exec skipPattern u) as [rest|] eqn:E.
  - destruct (exec_sound _ _ _ E) as (m & -> & L).
    unfold skipPattern in L.
    inversion L as [| |? ? u1 u2 ? L1 L2| | |]; subst.
    inversion L1; subst. inversion L2; subst.
    intros _. unfold bracket_only. by rewrite !app_nil_r.
  - destruct u; [constructor | discriminate].
Qed.

Lemma extractTag_suffix (t buf t1 buf1 : str) :
  extractTag t buf = (t1, buf1) -> (length buf1 <= length buf)%nat.
Proof.
  unfold extractTag, slice. destruct (detectTag buf); inversion 1; subst.
  - rewrite length_drop. lia.
  - lia.
Qed.

Lemma trimStart_length (s : str) : (length (trimStart s) <= length s)%nat.
Proof.
  induction s as [|c s IH]; simpl; [lia|].
  destruct (is_space c); simpl; lia.
Qed.

(** C4. When the unit a chunk's pass extracts consists solely of white
    space and bracket or quote characters, the pass calls neither
    [handleSpeakAi] nor any setter and adds nothing to the reply's text,
    yet the unit is removed from the front of the buffer (which gets
    strictly shorter) and the loop goes on reading. *)
Theorem C4_bracket_only_unit_is_consumed
    (s : State) (value u : str) :
  phase s = Reading ->
  extracted (snd (onChunk (turn s) value)) = Some u ->
  bracket_only u ->
  let s' := step s (ReadChunk value) in
  dispatched (snd (onChunk (turn s) value)) = None /\
  calls s' = calls s /\ pending s' = pending s /\ log s' = log s /\
  aiTextLog (turn s') = aiTextLog (turn s) /\
  phase s' = Reading /\
  (exists rest,
      snd (extractTag (tag (turn s)) (receivedMessage (turn s) ++ value))
      = u ++ rest /\
      receivedMessage (turn s') = trimStart rest) /\
  (length (receivedMessage (turn s'))
   < length (receivedMessage (turn s) ++ value))%nat.
Proof.
  intros Hph Hex Hall. simpl. rewrite Hph.
  unfold effect, loopBody. revert Hex. unfold onChunk.
  destruct (extractTag (tag (turn s)) (receivedMessage (turn s) ++ value))
    as [t1 b1] eqn:Et.
  destruct (extractSentence b1) as [[u'|] out] eqn:Es; simpl;
    [|discriminate].
  destruct (extractSentence_some _ _ _ Es) as (rest & -> & -> & Hne & _).
  destruct (unspeakable u') eqn:Hu.
  - simpl. intros E. inversion E; subst; clear E.
    repeat split; auto.
    + by exists rest.
    + apply extractTag_suffix in Et. rewrite length_app in Et.
      pose proof (trimStart_length rest). destruct u; [done|].
      simpl in Et. lia.
  - simpl. intros E. inversion E; subst; clear E.
    rewrite (bracket_only_unspeakable u Hall Hne) in Hu. discriminate.
Qed.

Lemma C4_bracket_only_unit_is_consumed_witness :
  let s := startTurn mount in
  let value := [0x3010; 0x3011; 0x0A] in
  let s' := step s (ReadChunk value) in
  calls s' = calls s /\ receivedMessage (turn s') = [] /\ phase s' = Reading.
Proof.
  intros s value s'.
  assert (H1 : phase s = Reading) by reflexivity.
  assert (H2 : extracted (snd (onChunk (turn s) value)) = Some value)
    by (vm_compute; reflexivity).
  assert (H3 : bracket_only value) by (repeat constructor).
  destruct (C4_bracket_only_unit_is_consumed s value value H1 H2 H3)
    as (_ & Hc & _ & _ & _ & Hp & _ & _).
  split; [exact Hc | split; [vm_compute; reflexivity | exact Hp]].
Defined.

End Segmentation.

(** ** The running tag *)

Section Tags.
Import Home Spec.

Lemma detectTag_strips (old buf t : str) :
  detectTag buf = Some t ->
  bracketed t /\
  exists rest, buf = t ++ rest /\ extractTag old buf = (t, rest).
Proof.
  intros H. unfold extractTag. rewrite H. revert H. unfold detectTag.
  destruct (match0 tagPattern buf) as [m|] eqn:Hm; [|discriminate].
  destruct (truthy m); [|discriminate].
  intros E. inversion E; subst; clear E.
  destruct (match0_sound _ _ _ Hm) as (rest & -> & L). split.
  - unfold tagPattern in L.
    inversion L as [| |? ? u1 u2 ? L1 L2| | |]; subst.
    inversion L2 as [| |? ? u3 u4 ? L3 L4| | |]; subst.
    inversion L1 as [? c1 ? Hc1| | | | |]; subst.
    inversion L4 as [? c4 ? Hc4| | | | |]; subst.
    unfold one_of in Hc1, Hc4. simpl in Hc1, Hc4.
    rewrite orb_false_r in Hc1, Hc4.
    apply N.eqb_eq in Hc1, Hc4. subst. by exists u3.
  - exists rest. unfold slice. by rewrite drop_app_length.
Qed.

(** One pass: the tag it leaves in force is the one it detected, or else
    the one it found; a call it makes carries that tag, a space and the
    unit. *)
Lemma onChunk_tag (s : Turn) (value : str) :
  tag (fst (onChunk s value))
  = default (tag s) (detected (snd (onChunk s value))) /\
  forall d, dispatched (snd (onChunk s value)) = Some d ->
    aiText d = tag (fst (onChunk s value)) ++ space ++ sentence d /\
    extracted (snd (onChunk s value)) = Some (sentence d) /\
    unspeakable (sentence d) = false.
Proof.
  unfold onChunk, extractTag.
  destruct (detectTag (receivedMessage s ++ value)) as [t|];
    destruct (extractSentence _) as [[u|] out];
    try destruct (unspeakable u) eqn:Hu; simpl; split; auto;
    intros d E; inversion E; subst; auto.
Qed.

Lemma readLoop_cons (s : Turn) (value : str) (rest : list str) :
  readLoop s (value :: rest)
  = (fst (readLoop (fst (onChunk s value)) rest),
     snd (onChunk s value) :: snd (readLoop (fst (onChunk s value)) rest)).
Proof.
  simpl. destruct (onChunk s value) as [s1 p]. simpl.
  by destruct (readLoop s1 rest).
Qed.

(** While no pass detects a tag, the calls carry the tag the loop started
    with. *)
Lemma untagged_passes (cs : list str) : forall (s : Turn) (j : nat) q d,
  snd (readLoop s cs) !! j = Some q ->
  (forall i q', (i <= j)%nat -> snd (readLoop s cs) !! i = Some q' ->
                detected q' = None) ->
  dispatched q = Some d ->
  aiText d = tag s ++ space ++ sentence d.
Proof.
  induction cs as [|value cs IH]; intros s j q d Hq Hnone Hd;
    [discriminate|].
  rewrite readLoop_cons in Hq, Hnone. simpl in Hq, Hnone.
  destruct (onChunk_tag s value) as [Ht Hcall].
  assert (H0 : detected (snd (onChunk s value)) = None)
    by (apply (Hnone 0%nat); [lia | done]).
  rewrite H0 in Ht. simpl in Ht.
  destruct j as [|j]; simpl in Hq.
  - inversion Hq; subst. destruct (Hcall d Hd) as [-> _]. by rewrite Ht.
  - rewrite <- Ht. apply (IH _ j q d Hq); [|done].
    intros i q' Hi Hq'. apply (Hnone (S i)); [lia | done].
Qed.

Lemma readLoop_split (cs : list str) : forall (s : Turn) pre p rest,
  snd (readLoop s cs) = pre ++ p :: rest ->
  exists s1 value cs2,
    p = snd (onChunk s1 value) /\
    rest = snd (readLoop (fst (onChunk s1 value)) cs2).
Proof.
  induction cs as [|value cs IH]; intros s pre p rest H.
  - by destruct pre.
  - rewrite readLoop_cons in H. simpl in H.
    destruct pre as [|p0 pre]; simpl in H; inversion H; subst.
    + by exists s, value, cs.
    + by eapply IH.
Qed.

(** C3. A bracketed tag detected at offset 0 of the buffer by some pass of
    the loop is prepended (with a space) to the unit that pass dispatches
    and to the unit of every later pass of the same turn, as long as no
    pass in between detects a tag; a pass that detects one puts the new
    tag in its place (the statement then holds of the new tag). *)
Theorem C3_tag_is_a_running_annotation
    (cs : list str) (pre rest : list Pass) (p q : Pass) (t : str)
    (j : nat) (d : Dispatch) :
  snd (readLoop newTurn cs) = pre ++ p :: rest ->
  detected p = Some t ->
  (p :: rest) !! j = Some q ->
  (forall i q', (0 < i <= j)%nat -> (p :: rest) !! i = Some q' ->
                detected q' = None) ->
  dispatched q = Some d ->
  bracketed t /\ aiText d = t ++ space ++ sentence d.
Proof.
  intros Hsplit Hdet Hq Hnone Hd.
  destruct (readLoop_split _ _ _ _ _ Hsplit) as (s1 & value & cs2 & -> & ->).
  destruct (onChunk_tag s1 value) as [Ht Hcall].
  rewrite Hdet in Ht. simpl in Ht. split.
  - unfold onChunk in Hdet. destruct (extractTag _ _).
    destruct (extractSentence _) as [[u|] out];
      try destruct (unspeakable u); simpl in Hdet;
      by destruct (detectTag_strips [] _ _ Hdet).
  - destruct j as [|j]; simpl in Hq.
    + injection Hq as <-. destruct (Hcall d Hd) as [-> _]. by rewrite Ht.
    + rewrite <- Ht. apply (untagged_passes _ _ j q d Hq); [|done].
      intros i q' Hi Hq'. apply (Hnone (S i)); [lia | done].
Qed.

Lemma C3_tag_is_a_running_annotation_witness :
  let cs := [lit "[happy]Hi there. "; lit "How are you? "; lit "[sad]Bye."] in
  let ps := snd (readLoop newTurn cs) in
  bracketed (lit "[happy]") /\
  aiText <$> (ps !! 1%nat ≫= dispatched) = Some (lit "[happy] How are you?").
Proof.
  intros cs ps.
  let v := eval vm_compute in ps in
  match v with
  | [?a; ?b; ?c] =>
      match eval vm_compute in (dispatched b) with
      | Some ?d =>
          destruct (C3_tag_is_a_running_annotation
                      cs [] [b; c] a b (lit "[happy]") 1%nat d)
            as [Hb Ha]
      end
  end.
  - vm_compute. reflexivity.
  - reflexivity.
  - reflexivity.
  - intros i q' Hi. assert (i = 1%nat) as -> by lia.
    intros E. injection E as <-. reflexivity.
  - reflexivity.
  - split; [exact Hb|]. vm_compute. reflexivity.
Defined.

End Tags.

(** ** The turn and the dispatcher *)

Section Dispatcher.
Import Home Spec.

Ltac setters :=
  unfold setChatProcessing, setIsPlayingAudio, setIsAISpeaking,
    setAssistantMessage, rerender;
  repeat match goal with
    | |- context [if deps_changed ?a ?b then _ else _] =>
        destruct (deps_changed a b)
    end;
  simpl.


Lemma dispatches_cons (p : Pass) (ps : list Pass) :
  dispatches (p :: ps) = option_list (dispatched p) ++ dispatches ps.
Proof. unfold dispatches. simpl. by destruct (dispatched p). Qed.


(** *** What each event does to the turn and to the calls *)

Lemma loopBody_effect (value : str) (s : State) :
  let s' := effect (loopBody value) s in
  calls s' = calls s ++ option_list (dispatched (snd (onChunk (turn s) value)))
  /\ turn s' = fst (onChunk (turn s) value) /\ phase s' = phase s.
Proof.
  unfold effect, loopBody. destruct (onChunk (turn s) value) as [t1 p].
  simpl. destruct (dispatched p) as [d|]; simpl.
  - unfold handleSpeakAi_call, bind, modify. simpl. by setters.
  - by rewrite app_nil_r.
Qed.

Lemma finish_effect (o : completion unit) (s : State) :
  let s' := effect (handleSendChat_finish o) s in
  calls s' = calls s /\ turn s' = turn s /\ phase s' = Idle.
Proof.
  unfold effect, handleSendChat_finish, try_finally, try_catch, settled,
    bind, modify, ret.
  destruct o as [[]|e]; simpl; by setters.
Qed.

Lemma resume_effect (o : completion unit) (s : State) :
  let s' := effect (handleSpeakAi_resume o) s in
  calls s' = calls s /\ turn s' = turn s /\ phase s' = phase s /\
  pending s' = pending s /\ isAISpeaking s' = false /\
  log s' = log s ++ [SetIsAISpeaking false].
Proof.
  unfold effect, handleSpeakAi_resume, try_finally, try_catch, settled,
    modify, ret.
  destruct o as [[]|e]; simpl; by setters.
Qed.

Lemma playback_effect (d : Dispatch) (s : State) :
  (let s' := effect (onPlaybackStart d) s in
   calls s' = calls s /\ turn s' = turn s /\ phase s' = phase s) /\
  (let s' := effect onPlaybackEnd s in
   calls s' = calls s /\ turn s' = turn s /\ phase s' = phase s).
Proof.
  unfold effect, onPlaybackStart, onPlaybackEnd, bind, modify.
  simpl. split; by setters.
Qed.

Lemma step_idle (s : State) (ev : Event) :
  phase s <> Reading ->
  calls (step s ev) = calls s /\ turn (step s ev) = turn s /\
  phase (step s ev) = phase s.
Proof.
  intros Hph. destruct ev as [value| |e|call|call|call o]; simpl.
  - destruct (phase s) eqn:E; by try congruence.
  - destruct (phase s) eqn:E; by try congruence.
  - destruct (phase s) eqn:E; by try congruence.
  - destruct (calls s !! call) as [d|]; [|done].
    destruct (is_pending call s); [|done].
    apply (playback_effect d s).
  - destruct (is_pending call s); [|done].
    apply (playback_effect (mkDispatch [] [] []) s).
  - destruct (is_pending call s); [|done].
    destruct (resume_effect o (forget call s)) as (? & ? & ? & _). done.
Qed.

Lemma run_idle (evs : list Event) : forall s : State,
  phase s <> Reading ->
  calls (run s evs) = calls s /\ turn (run s evs) = turn s.
Proof.
  induction evs as [|ev evs IH]; intros s Hph; [done|].
  destruct (step_idle s ev Hph) as (Hc & Ht & Hp).
  change (run s (ev :: evs)) with (run (step s ev) evs).
  destruct (IH (step s ev)) as [-> ->]; [by rewrite Hp | done].
Qed.

(** The calls of a turn and its units depend on the chunks alone, however
    the events of the pending calls fall between the reads. *)
Lemma run_reading (evs : list Event) : forall s : State,
  phase s = Reading ->
  calls (run s evs)
  = calls s ++ dispatches (snd (readLoop (turn s) (chunks evs))) /\
  turn (run s evs) = fst (readLoop (turn s) (chunks evs)).
Proof.
  induction evs as [|ev evs IH]; intros s Hph.
  - simpl. by rewrite app_nil_r.
  - change (run s (ev :: evs)) with (run (step s ev) evs).
    destruct ev as [value| |e|call|call|call o].
    + change (chunks (ReadChunk value :: evs)) with (value :: chunks evs).
      rewrite readLoop_cons. simpl fst. simpl snd. rewrite dispatches_cons.
      assert (step s (ReadChunk value) = effect (loopBody value) s) as ->
          by (simpl; by rewrite Hph).
      destruct (loopBody_effect value s) as (Hc & Ht & Hp).
      destruct (IH (effect (loopBody value) s)) as [-> ->];
        [by rewrite Hp|].
      by rewrite Hc, Ht, app_assoc.
    + assert (step s ReadDone = effect (handleSendChat_finish (Normal tt)) s)
        as -> by (simpl; by rewrite Hph).
      destruct (finish_effect (Normal tt) s) as (Hc & Ht & Hp).
      destruct (run_idle evs (effect (handleSendChat_finish (Normal tt)) s))
        as [-> ->]; [by rewrite Hp|].
      simpl. by rewrite app_nil_r.
    + assert (step s (ReadError e)
              = effect (handleSendChat_finish (Throw e)) s)
        as -> by (simpl; by rewrite Hph).
      destruct (finish_effect (Throw e) s) as (Hc & Ht & Hp).
      destruct (run_idle evs (effect (handleSendChat_finish (Throw e)) s))
        as [-> ->]; [by rewrite Hp|].
      simpl. by rewrite app_nil_r.
    + assert (calls (step s (PlaybackStart call)) = calls s /\
              turn (step s (PlaybackStart call)) = turn s /\
              phase (step s (PlaybackStart call)) = phase s)
        as (Hc & Ht & Hp).
      { simpl. destruct (calls s !! call) as [d|]; [|done].
        destruct (is_pending call s); [|done]. apply (playback_effect d s). }
      destruct (IH (step s (PlaybackStart call))) as [-> ->];
        [by rewrite Hp|]. by rewrite Hc, Ht.
    + assert (calls (step s (PlaybackEnd call)) = calls s /\
              turn (step s (PlaybackEnd call)) = turn s /\
              phase (step s (PlaybackEnd call)) = phase s)
        as (Hc & Ht & Hp).
      { simpl. destruct (is_pending call s); [|done].
        apply (playback_effect (mkDispatch [] [] []) s). }
      destruct (IH (step s (PlaybackEnd call))) as [-> ->];
        [by rewrite Hp|]. by rewrite Hc, Ht.
    + assert (calls (step s (Settle call o)) = calls s /\
              turn (step s (Settle call o)) = turn s /\
              phase (step s (Settle call o)) = phase s)
        as (Hc & Ht & Hp).
      { simpl. destruct (is_pending call s); [|done].
        destruct (resume_effect o (forget call s)) as (? & ? & ? & _).
        done. }
      destruct (IH (step s (Settle call o))) as [-> ->];
        [by rewrite Hp|]. by rewrite Hc, Ht.
Qed.

Lemma calls_of_turn (s : State) (evs : list Event) :
  calls (run (startTurn s) evs)
  = calls s ++ dispatches (snd (readLoop newTurn (chunks evs))).
Proof.
  assert (phase (startTurn s) = Reading /\ turn (startTurn s) = newTurn /\
          calls (startTurn s) = calls s) as (Hph & Ht & Hc).
  { unfold startTurn, effect, handleSendChat_call, handleSendChat_stream,
      bind, modify. simpl. by setters. }
  destruct (run_reading evs (startTurn s) Hph) as [Hcalls _].
  by rewrite Ht, Hc in Hcalls.
Qed.

Lemma startTurn_state (s : State) :
  phase (startTurn s) = Reading /\ turn (startTurn s) = newTurn /\
  calls (startTurn s) = calls s /\ pending (startTurn s) = pending s.
Proof.
  unfold startTurn, effect, handleSendChat_call, handleSendChat_stream,
    bind, modify. simpl. by setters.
Qed.

(** *** Order of the calls *)


(** *** Calls that have settled *)












(** *** The speaking flag *)

(** C6. A call of [handleSpeakAi] sets [isAISpeaking] before it calls
    [speakCharacter]; when the promise settles, resolved or rejected, the
    function ends normally with the flag reset, so the rejection goes no
    further; and the settlement of a call, whatever it is, leaves the turn
    as it is: the calls of a turn are those its chunks ask for. *)
Theorem C6_speaking_flag :
  (forall d s,
      fst (handleSpeakAi_call d s) = Normal tt /\
      isAISpeaking (snd (handleSpeakAi_call d s)) = true /\
      log (snd (handleSpeakAi_call d s))
      = log s ++ [SetIsAISpeaking true;
                  SpeakCharacter (length (calls s)) (aiText d)]) /\
  (forall o s,
      fst (handleSpeakAi_resume o s) = Normal tt /\
      isAISpeaking (snd (handleSpeakAi_resume o s)) = false) /\
  (forall s call o,
      phase (step s (Settle call o)) = phase s /\
      turn (step s (Settle call o)) = turn s /\
      calls (step s (Settle call o)) = calls s) /\
  (forall s evs,
      calls (run (startTurn s) evs)
      = calls s ++ dispatches (snd (readLoop newTurn (chunks evs)))).
Proof.
  repeat apply conj.
  - intros d s. unfold handleSpeakAi_call, bind, modify. simpl.
    setters; by rewrite <- app_assoc.
  - intros o s. pose proof (resume_effect o s) as (_ & _ & _ & _ & Hf & _).
    split; [|exact Hf].
    unfold handleSpeakAi_resume, try_finally, try_catch, settled, modify, ret.
    by destruct o as [[]|e].
  - intros s call o. simpl. destruct (is_pending call s); [|done].
    destruct (resume_effect o (forget call s)) as (? & ? & ? & _). done.
  - intros s evs. apply calls_of_turn.
Qed.

(** *** The busy gate *)

Lemma rerender_current (old new : State) :
  llmCallback new = llmCallback old -> callback_is_current old ->
  callback_is_current (rerender old new).
Proof.
  unfold callback_is_current, rerender, capture. intros E F.
  destruct (deps_changed old new) eqn:D; [done|].
  unfold deps_changed in D.
  apply orb_false_elim in D as [D D3]. apply orb_false_elim in D as [D1 D2].
  apply negb_false_iff, Bool.eqb_prop in D1, D2, D3.
  rewrite E, F, D1, D2, D3. done.
Qed.

Lemma setters_current (s : State) :
  callback_is_current s ->
  (forall b, callback_is_current (setChatProcessing b s)) /\
  (forall b, callback_is_current (setIsPlayingAudio b s)) /\
  (forall b, callback_is_current (setIsAISpeaking b s)) /\
  (forall m, callback_is_current (setAssistantMessage m s)) /\
  (forall d, callback_is_current (speakCharacter d s)) /\
  (forall v, callback_is_current (with_phase v s)) /\
  (forall v, callback_is_current (with_turn v s)) /\
  (forall v, callback_is_current (with_pending v s)).
Proof.
  intros F. repeat apply conj; intros x;
    try (by apply rerender_current); exact F.
Qed.

Ltac current :=
  repeat first
    [ assumption
    | apply setters_current ].

Lemma step_current (s : State) (ev : Event) :
  callback_is_current s -> callback_is_current (step s ev).
Proof.
  intros F. destruct ev as [value| |e|call|call|call o]; simpl.
  - destruct (phase s); try done.
    unfold effect, loopBody. destruct (onChunk (turn s) value) as [t1 p].
    destruct (dispatched p) as [d|]; simpl; current.
  - destruct (phase s); try done.
    unfold effect, handleSendChat_finish, try_finally, try_catch, settled,
      bind, modify, ret. simpl. current.
  - destruct (phase s); try done.
    unfold effect, handleSendChat_finish, try_finally, try_catch, settled,
      bind, modify, ret. simpl. current.
  - destruct (calls s !! call) as [d|]; [|done].
    destruct (is_pending call s); [|done].
    unfold effect, onPlaybackStart, bind, modify. simpl. current.
  - destruct (is_pending call s); [|done].
    unfold effect, onPlaybackEnd, modify. simpl. current.
  - destruct (is_pending call s); [|done].
    unfold effect, handleSpeakAi_resume, try_finally, try_catch, settled,
      modify, ret, forget.
    destruct o as [[]|e]; simpl; current.
Qed.

Lemma startTurn_current (s : State) :
  callback_is_current s -> callback_is_current (startTurn s).
Proof.
  intros F. unfold startTurn, effect, handleSendChat_call,
    handleSendChat_stream, bind, modify. simpl. current.
Qed.

Lemma run_current (evs : list Event) : forall s : State,
  callback_is_current s -> callback_is_current (run s evs).
Proof.
  induction evs as [|ev evs IH]; intros s F; [done|].
  apply (IH (step s ev)), step_current, F.
Qed.

(** C5, as stated, fails on the page: the refusal does not carry the
    error text ["system busy"]. *)
Lemma C5_refusal_text : ~ busy_gate_as_specified.
Proof.
  intros H.
  destruct (H (mkLLMCallback false false true) []) as [_ H2].
  specialize (H2 (or_introl eq_refl)). discriminate H2.
Qed.

(** C5, amended. The callback refuses a message at once, with
    [{processed: false, error: "System is busy processing previous
    message"}], if and only if one of the three flags it sees is set;
    a refused message is held by nothing (the call has returned). When the
    three flags are clear the message goes to [handleSendChat], and the
    result is [{processed: true}] when that returns. During a turn the
    flags the callback sees are those of the page. *)
Theorem C5_busy_gate :
  (forall c message,
      llmCallback_call c message = Return busy_refusal <->
      (seen_chatProcessing c = true \/ seen_isAISpeaking c = true \/
       seen_isPlayingAudio c = true)) /\
  (forall c message,
      llmCallback_call c message = AwaitHandleSendChat message <->
      (seen_chatProcessing c = false /\ seen_isAISpeaking c = false /\
       seen_isPlayingAudio c = false)) /\
  llmCallback_resume (Normal tt) = {| processed := true; error := None |} /\
  (forall evs, callback_is_current (run (startTurn mount) evs)).
Proof.
  repeat apply conj.
  - intros [a b c] message. unfold llmCallback_call. simpl.
    destruct a, b, c; simpl; split; intros H; try reflexivity;
      try discriminate; try tauto; destruct H as [H|[H|H]]; discriminate.
  - intros [a b c] message. unfold llmCallback_call. simpl.
    destruct a, b, c; simpl; split; intros H; try reflexivity;
      try discriminate; try tauto; destruct H as (? & ? & ?); discriminate.
  - reflexivity.
  - intros evs. apply run_current, startTurn_current. reflexivity.
Qed.

(** *** The status reply *)

Lemma onCommand_getStatus (b : bool) :
  onCommand b getStatus = [AvatarClient.Send (status_frame b)].
Proof. reflexivity. Qed.

(** The handler answers a status request with one frame, on the socket of
    the client, when the client is connected; the frame carries the flag
    the handler captured. *)
Lemma getStatus_reply (b : bool) (w : AvatarClient.World) id sock :
  AvatarClient.commandHandlers w = [onCommand b] ->
  AvatarClient.isConnected w = true ->
  AvatarClient.ws w = Some id ->
  AvatarClient.sockets w !! id = Some sock ->
  AvatarClient.sent
    <$> (AvatarClient.sockets (AvatarClient.handleCommand getStatus w) !! id)
  = Some (AvatarClient.sent sock ++ [status_frame b]).
Proof.
  intros Hh Hc Hws Hs. unfold AvatarClient.handleCommand. rewrite Hh. simpl.
  unfold AvatarClient.send. rewrite Hc, Hws, Hs. simpl.
  unfold AvatarClient.isConnected, AvatarClient.ws_is_open in Hc.
  rewrite Hws, Hs in Hc. apply andb_prop in Hc as [_ Hopen].
  unfold AvatarClient.WebSocket_send.
  destruct (AvatarClient.readyState sock); try discriminate. simpl.
  rewrite list_lookup_insert_eq; [done|].
  by apply lookup_lt_Some in Hs.
Qed.

(** C9, on the page: the handler is created once, by an effect that
    depends on [viewer] alone, and answers with the [isAISpeaking] of the
    render that created it. Here the page is mounted and the socket is
    open; a chunk of a reply starts a speech, so the flag is set; the
    status request that comes next is answered with [speaking: false]. *)
Theorem C9_status_reply_is_stale :
  let page := run (startTurn mount) [ReadChunk (lit "Hello.")] in
  let client :=
    AvatarClient.run (avatarEffect mount true)
      [AvatarClient.SocketOpen 0;
       AvatarClient.SocketMessage 0 (Some getStatus)] in
  isAISpeaking page = true /\
  AvatarClient.sent <$> (AvatarClient.sockets client !! 0%nat)
  = Some [AvatarClient.identify; status_frame false].
Proof. vm_compute. split; reflexivity. Qed.

End Dispatcher.

(** ** The avatar client *)

Section Client.
Import AvatarClient Spec.

Implicit Types (w : World) (id : nat).

(** *** Invariants of a client *)

Lemma update_socket_fields id f w :
  ws (update_socket id f w) = ws w /\
  reconnectTimer (update_socket id f w) = reconnectTimer w /\
  connected (update_socket id f w) = connected w /\
  destroyed (update_socket id f w) = destroyed w /\
  timers (update_socket id f w) = timers w /\
  commandHandlers (update_socket id f w) = commandHandlers w /\
  connectionHandlers (update_socket id f w) = connectionHandlers w /\
  length (sockets (update_socket id f w)) = length (sockets w).
Proof.
  unfold update_socket. destruct (sockets w !! id); simpl;
    rewrite ?length_insert; done.
Qed.

Lemma update_socket_inv id f w : inv w -> inv (update_socket id f w).
Proof.
  intros [Ht Hw].
  destruct (update_socket_fields id f w) as (E1 & E2 & _ & _ & E5 & _ & _ & E8).
  split.
  - unfold one_timer. by rewrite E5, E2.
  - intros i. rewrite E1, E8. apply Hw.
Qed.

Lemma scheduleReconnect_inv w :
  inv w ->
  inv (scheduleReconnect w) /\ is_Some (reconnectTimer (scheduleReconnect w)).
Proof.
  intros [Ht Hw]. unfold scheduleReconnect.
  destruct (reconnectTimer w) as [h|] eqn:E.
  - split; [by split | rewrite E; eauto].
  - simpl. split; [split | eauto].
    + unfold one_timer in *. simpl. rewrite Ht, E. done.
    + exact Hw.
Qed.

Lemma clearTimeout_only h d w :
  timers w = [(h, d)] -> timers (clearTimeout h w) = [].
Proof.
  intros E. unfold clearTimeout. simpl. rewrite E, filter_cons. simpl.
  by case_decide.
Qed.

Lemma cancelReconnect_inv w :
  inv w ->
  inv (cancelReconnect w) /\ reconnectTimer (cancelReconnect w) = None /\
  timers (cancelReconnect w) = [].
Proof.
  intros [Ht Hw]. unfold cancelReconnect. unfold one_timer in Ht.
  destruct (reconnectTimer w) as [h|] eqn:E.
  - pose proof (clearTimeout_only _ _ _ Ht) as Hc.
    split; [split | split]; [| exact Hw | done | exact Hc].
    unfold one_timer. simpl. exact Hc.
  - split; [split | split]; [| exact Hw | exact E | by rewrite Ht].
    unfold one_timer. by rewrite E.
Qed.

Lemma connect_inv w : inv w -> inv (connect w).
Proof.
  intros H. unfold connect.
  destruct (destroyed w); [done|].
  destruct (ws_is_open w); [done|].
  destruct (constructible w); [|by apply scheduleReconnect_inv].
  destruct H as [Ht Hw]. split.
  - unfold one_timer in *. simpl. done.
  - intros i. simpl. intros E. inversion E; subst.
    rewrite length_app. simpl. lia.
Qed.

Lemma disconnect_inv w : inv w -> inv (disconnect w).
Proof.
  intros H. unfold disconnect.
  assert (inv (set_destroyed true w)) as H1 by (destruct H; by split).
  destruct (cancelReconnect_inv _ H1) as ([Ht Hw] & _).
  set (c1 := cancelReconnect (set_destroyed true w)) in *.
  destruct (ws c1) as [id|] eqn:E.
  - pose proof (update_socket_inv id WebSocket_close _
                  (update_socket_inv id WebSocket_detach _ (conj Ht Hw)))
      as [Ht2 Hw2].
    split; [exact Ht2 | intros i; simpl; discriminate].
  - split; [exact Ht | intros i; simpl; rewrite E; discriminate].
Qed.

Lemma send_inv message w : inv w -> inv (send message w).
Proof.
  intros [Ht Hw]. unfold send.
  destruct (negb (isConnected w)); [done|].
  destruct (ws w) as [id|] eqn:E; [|done].
  destruct (sockets w !! id) as [s|]; [|done].
  destruct (WebSocket_send message s); [|done].
  split; [exact Ht|].
  intros i. simpl. rewrite length_insert. apply Hw.
Qed.

Lemma perform_inv w call : inv w -> inv (perform w call).
Proof.
  destruct call; simpl; auto using connect_inv, disconnect_inv, send_inv.
Qed.

Lemma performs_inv (l : list Call) : forall w,
  inv w -> inv (fold_left perform l w).
Proof.
  induction l as [|c l IH]; intros w H; [done|].
  simpl. by apply IH, perform_inv.
Qed.

Lemma handlers_inv {A} (x : A) (hs : list (A -> list Call)) : forall w,
  inv w -> inv (fold_left (fun c h => fold_left perform (h x) c) hs w).
Proof.
  induction hs as [|h hs IH]; intros w H; [done|].
  simpl. by apply IH, performs_inv.
Qed.

Lemma ws_onopen_inv w : inv w -> inv (ws_onopen w).
Proof.
  intros H. unfold ws_onopen.
  assert (inv (set_connected true w)) as H1 by (destruct H; by split).
  pose proof (handlers_inv true (connectionHandlers (set_connected true w))
                _ H1) as H2.
  fold (notifyConnectionChange true (set_connected true w)) in H2.
  destruct (cancelReconnect_inv _ H2) as ([Ht Hw] & _).
  set (c2 := cancelReconnect _) in *.
  destruct (ws c2) as [id|] eqn:E; [|done].
  destruct (sockets c2 !! id) as [s|]; [|done].
  destruct (WebSocket_send identify s); [|done].
  split; [exact Ht|].
  intros i. simpl. rewrite length_insert. apply Hw.
Qed.

Lemma ws_onclose_inv w :
  inv w -> inv (ws_onclose w) /\ is_Some (reconnectTimer (ws_onclose w)).
Proof.
  intros H. unfold ws_onclose. apply scheduleReconnect_inv.
  assert (inv (set_connected false w)) as H1 by (destruct H; by split).
  apply (handlers_inv false (connectionHandlers (set_connected false w)) _ H1).
Qed.

Lemma pending_timer_inv h w :
  inv w -> pending_timer h w = true -> reconnectTimer w = Some h.
Proof.
  intros [Ht _]. unfold pending_timer, one_timer in *.
  destruct (reconnectTimer w) as [h'|]; rewrite Ht; simpl; [|done].
  rewrite orb_false_r. intros E. apply Nat.eqb_eq in E. by subst.
Qed.

Lemma step_inv w ev : inv w -> inv (step w ev).
Proof.
  intros H. destruct ev as [call|h|h|id|id data|id|id|h]; simpl.
  - by apply perform_inv.
  - destruct H. by split.
  - destruct H. by split.
  - destruct (sockets w !! id) as [s|]; [|done].
    destruct (ReadyState_eqb (readyState s) CONNECTING); [|done].
    pose proof (update_socket_inv id (WebSocket_set_readyState OPEN) _ H).
    destruct (onopen s); [by apply ws_onopen_inv | done].
  - destruct (sockets w !! id) as [s|]; [|done].
    destruct (_ || _); [|done].
    destruct (onmessage s); [|done].
    destruct data as [command|]; [|done].
    apply (handlers_inv command (commandHandlers w) _ H).
  - destruct (sockets w !! id) as [s|]; [|done].
    destruct (ReadyState_eqb (readyState s) CLOSED); [done|].
    by destruct (onerror s).
  - destruct (sockets w !! id) as [s|]; [|done].
    destruct (ReadyState_eqb (readyState s) CLOSED); [done|].
    pose proof (update_socket_inv id (WebSocket_set_readyState CLOSED) _ H).
    destruct (onclose s); [by apply ws_onclose_inv | done].
  - destruct (pending_timer h w) eqn:E; [|done].
    pose proof (pending_timer_inv _ _ H E) as Hr.
    destruct H as [Ht Hw]. unfold one_timer in Ht. rewrite Hr in Ht.
    unfold reconnect_timeout. apply connect_inv. split.
    + unfold one_timer. simpl. rewrite Ht, filter_cons. simpl.
      by case_decide.
    + exact Hw.
Qed.

Lemma run_inv (evs : list Event) : forall w, inv w -> inv (run w evs).
Proof.
  induction evs as [|ev evs IH]; intros w H; [done|].
  apply (IH (step w ev)), step_inv, H.
Qed.

Lemma new_inv u ok : inv (new u ok).
Proof. split; [done | intros id; discriminate]. Qed.

(** *** What lasts *)

Lemma later_refl w : later w w.
Proof. split; [intros H; by split | done]. Qed.

Lemma later_trans w1 w2 w3 : later w1 w2 -> later w2 w3 -> later w1 w3.
Proof.
  intros [A1 B1] [A2 B2]. split.
  - intros H. destruct (A1 H) as [H2 E2]. destruct (A2 H2) as [H3 E3].
    split; [done | by rewrite E3].
  - intros id H. by apply B2, B1.
Qed.

(** A change of the client's own fields. *)
Lemma later_fields w w' :
  sockets w' = sockets w ->
  (dead w -> dead w') ->
  later w w'.
Proof.
  intros Es Hd. split.
  - intros H. split; [by apply Hd | by rewrite Es].
  - intros id (s & Hs & Hn). exists s. by rewrite Es.
Qed.

(** A change of one socket that sets no callback. *)
Lemma later_insert i s s' w :
  sockets w !! i = Some s -> (all_null s -> all_null s') ->
  later w (set_sockets (<[i := s']> (sockets w)) w).
Proof.
  intros Hs Hn. split.
  - intros H. split; [exact H | simpl; by rewrite length_insert].
  - intros id (s0 & Hs0 & Hn0). unfold detached. simpl.
    destruct (decide (i = id)) as [->|Hne].
    + exists s'. rewrite list_lookup_insert_eq by (by apply lookup_lt_Some in Hs).
      split; [done|]. apply Hn. rewrite Hs in Hs0. by inversion Hs0; subst.
    + exists s0. by rewrite list_lookup_insert_ne.
Qed.

Lemma later_update_socket id f w :
  (forall s, all_null s -> all_null (f s)) -> later w (update_socket id f w).
Proof.
  intros Hf. unfold update_socket.
  destruct (sockets w !! id) as [s|] eqn:Hs; [|apply later_refl].
  eapply later_insert; eauto.
Qed.

Lemma keeps_readyState r s : all_null s -> all_null (WebSocket_set_readyState r s).
Proof. done. Qed.
Lemma keeps_close s : all_null s -> all_null (WebSocket_close s).
Proof. unfold WebSocket_close. by destruct (readyState s). Qed.
Lemma keeps_detach s : all_null s -> all_null (WebSocket_detach s).
Proof. done. Qed.
Lemma keeps_send m s s' : WebSocket_send m s = Some s' -> all_null s -> all_null s'.
Proof.
  unfold WebSocket_send. destruct (readyState s); inversion 1; by subst.
Qed.

Lemma later_scheduleReconnect w : later w (scheduleReconnect w).
Proof.
  unfold scheduleReconnect. destruct (reconnectTimer w); [apply later_refl|].
  by apply later_fields.
Qed.

Lemma later_cancelReconnect w : later w (cancelReconnect w).
Proof.
  unfold cancelReconnect. destruct (reconnectTimer w); [|apply later_refl].
  by apply later_fields.
Qed.

Lemma later_connect w : later w (connect w).
Proof.
  unfold connect. destruct (destroyed w) eqn:Ed; [apply later_refl|].
  destruct (ws_is_open w); [apply later_refl|].
  destruct (constructible w); [|apply later_scheduleReconnect].
  split.
  - intros [H _]. congruence.
  - intros id (s & Hs & Hn). exists s. split; [|done]. simpl.
    rewrite lookup_app_l; [done | by apply lookup_lt_Some in Hs].
Qed.

Lemma later_disconnect w : later w (disconnect w).
Proof.
  unfold disconnect.
  set (c1 := cancelReconnect (set_destroyed true w)).
  assert (later w c1) as L1.
  { eapply later_trans; [|apply later_cancelReconnect].
    apply later_fields; [done|]. intros [_ H]. by split. }
  eapply later_trans; [exact L1|].
  destruct (ws c1) as [id|] eqn:E.
  - eapply later_trans; [apply (later_update_socket id WebSocket_detach);
                         apply keeps_detach|].
    eapply later_trans; [apply (later_update_socket id WebSocket_close);
                         apply keeps_close|].
    apply later_fields; [done|]. intros [H _]. by split.
  - apply later_fields; [done|]. intros H. exact H.
Qed.

Lemma later_send m w : later w (send m w).
Proof.
  unfold send. destruct (negb (isConnected w)); [apply later_refl|].
  destruct (ws w) as [id|]; [|apply later_refl].
  destruct (sockets w !! id) as [s|] eqn:Hs; [|apply later_refl].
  destruct (WebSocket_send m s) as [s'|] eqn:E; [|apply later_refl].
  eapply later_insert; eauto using keeps_send.
Qed.

Lemma later_perform w call : later w (perform w call).
Proof.
  destruct call; simpl;
    auto using later_connect, later_disconnect, later_send.
Qed.

Lemma later_performs (l : list Call) : forall w, later w (fold_left perform l w).
Proof.
  induction l as [|c l IH]; intros w; [apply later_refl|].
  simpl. eapply later_trans; [apply later_perform | apply IH].
Qed.

Lemma later_handlers {A} (x : A) (hs : list (A -> list Call)) : forall w,
  later w (fold_left (fun c h => fold_left perform (h x) c) hs w).
Proof.
  induction hs as [|h hs IH]; intros w; [apply later_refl|].
  simpl. eapply later_trans; [apply later_performs | apply IH].
Qed.

Lemma later_ws_onopen w : later w (ws_onopen w).
Proof.
  unfold ws_onopen.
  set (c2 := cancelReconnect _).
  assert (later w c2) as L.
  { eapply later_trans; [|apply later_cancelReconnect].
    eapply later_trans;
      [|apply (later_handlers true
                 (connectionHandlers (set_connected true w)))].
    by apply later_fields. }
  destruct (ws c2) as [id|]; [|done].
  destruct (sockets c2 !! id) as [s|] eqn:Hs; [|done].
  destruct (WebSocket_send identify s) as [s'|] eqn:E; [|done].
  eapply later_trans; [exact L|].
  eapply later_insert; eauto using keeps_send.
Qed.

Lemma later_ws_onclose w : later w (ws_onclose w).
Proof.
  unfold ws_onclose.
  eapply later_trans; [|apply later_scheduleReconnect].
  eapply later_trans;
    [|apply (later_handlers false
               (connectionHandlers (set_connected false w)))].
  by apply later_fields.
Qed.

Lemma later_step w ev : later w (step w ev).
Proof.
  destruct ev as [call|h|h|id|id data|id|id|h]; simpl.
  - apply later_perform.
  - by apply later_fields.
  - by apply later_fields.
  - destruct (sockets w !! id) as [s|]; [|apply later_refl].
    destruct (ReadyState_eqb (readyState s) CONNECTING); [|apply later_refl].
    pose proof (later_update_socket id (WebSocket_set_readyState OPEN) w
                  (keeps_readyState OPEN)) as L.
    destruct (onopen s); [|done].
    eapply later_trans; [exact L | apply later_ws_onopen].
  - destruct (sockets w !! id) as [s|]; [|apply later_refl].
    destruct (_ || _); [|apply later_refl].
    destruct (onmessage s); [|apply later_refl].
    destruct data as [command|]; [|apply later_refl].
    apply (later_handlers command (commandHandlers w)).
  - destruct (sockets w !! id) as [s|]; [|apply later_refl].
    destruct (ReadyState_eqb (readyState s) CLOSED); [apply later_refl|].
    destruct (onerror s); apply later_refl.
  - destruct (sockets w !! id) as [s|]; [|apply later_refl].
    destruct (ReadyState_eqb (readyState s) CLOSED); [apply later_refl|].
    pose proof (later_update_socket id (WebSocket_set_readyState CLOSED) w
                  (keeps_readyState CLOSED)) as L.
    destruct (onclose s); [|done].
    eapply later_trans; [exact L | apply later_ws_onclose].
  - destruct (pending_timer h w); [|apply later_refl].
    unfold reconnect_timeout.
    eapply later_trans; [|apply later_connect].
    by apply later_fields.
Qed.

Lemma later_run (evs : list Event) : forall w, later w (run w evs).
Proof.
  induction evs as [|ev evs IH]; intros w; [apply later_refl|].
  eapply later_trans; [apply later_step | apply (IH (step w ev))].
Qed.

Lemma set_sockets_same l w : client_of (set_sockets l w) = client_of w.
Proof. done. Qed.

(** An event of a detached socket does not reach the client. *)
Lemma detached_silent id w ev :
  detached id w -> socket_of ev = Some id ->
  client_of (step w ev) = client_of w.
Proof.
  intros (s & Hs & Ho & Hm & He & Hc) Hev.
  destruct ev as [call|h|h|i|i data|i|i|h]; simpl in Hev; try discriminate;
    inversion Hev; subst; simpl; rewrite Hs.
  - destruct (ReadyState_eqb (readyState s) CONNECTING); [|done].
    rewrite Ho. unfold update_socket. by rewrite Hs.
  - destruct (_ || _); [|done]. by rewrite Hm.
  - destruct (ReadyState_eqb (readyState s) CLOSED); [done|]. by rewrite He.
  - destruct (ReadyState_eqb (readyState s) CLOSED); [done|].
    rewrite Hc. unfold update_socket. by rewrite Hs.
Qed.

(** *** The statements *)

Lemma disconnect_fields w :
  destroyed (disconnect w) = true /\ ws (disconnect w) = None /\
  connected (disconnect w) = false /\ reconnectTimer (disconnect w) = None.
Proof.
  unfold disconnect. set (c1 := cancelReconnect (set_destroyed true w)).
  assert (destroyed c1 = true /\ reconnectTimer c1 = None) as [Hd Hr].
  { unfold c1, cancelReconnect. simpl.
    destruct (reconnectTimer w) eqn:E; simpl; split; try reflexivity.
    exact E. }
  destruct (ws c1) as [i|] eqn:E; simpl; [|by rewrite Hd, Hr, E].
  destruct (update_socket_fields i WebSocket_close
              (update_socket i WebSocket_detach c1))
    as (_ & -> & _ & -> & _).
  destruct (update_socket_fields i WebSocket_detach c1)
    as (_ & -> & _ & -> & _).
  by rewrite Hd, Hr.
Qed.

Lemma disconnect_timers w : inv w -> timers (disconnect w) = [].
Proof.
  intros H. unfold disconnect.
  assert (inv (set_destroyed true w)) as H1 by (destruct H; by split).
  destruct (cancelReconnect_inv _ H1) as (_ & _ & Ht).
  set (c1 := cancelReconnect (set_destroyed true w)) in *.
  destruct (ws c1) as [id|]; simpl; [|done].
  destruct (update_socket_fields id WebSocket_close
              (update_socket id WebSocket_detach c1))
    as (_ & _ & _ & _ & -> & _).
  destruct (update_socket_fields id WebSocket_detach c1)
    as (_ & _ & _ & _ & -> & _).
  exact Ht.
Qed.

Lemma disconnect_socket id w :
  inv w -> ws w = Some id ->
  detached id (disconnect w) /\ closing id (disconnect w).
Proof.
  intros [_ Hw] E. pose proof (Hw id E) as Hlt.
  destruct (lookup_lt_is_Some_2 _ _ Hlt) as [s Hs].
  assert (sockets (disconnect w) !! id
          = Some (WebSocket_close (WebSocket_detach s))) as Hd.
  { unfold disconnect.
    set (c1 := cancelReconnect (set_destroyed true w)).
    assert (ws c1 = Some id /\ sockets c1 = sockets w) as [E1 S1].
    { unfold c1, cancelReconnect. simpl.
      destruct (reconnectTimer w); simpl; by split. }
    rewrite E1. simpl. unfold update_socket at 2. rewrite S1, Hs.
    unfold update_socket. simpl.
    rewrite list_lookup_insert_eq by done. simpl.
    rewrite list_insert_insert_eq, list_lookup_insert_eq by done. done. }
  split; exists (WebSocket_close (WebSocket_detach s)); (split; [exact Hd|]).
  - unfold WebSocket_close. by destruct (readyState (WebSocket_detach s)).
  - unfold WebSocket_close, WebSocket_detach. simpl.
    destruct (readyState s); simpl; auto.
Qed.

(** C7. [disconnect()] destroys the client for good. At once the client
    is destroyed and disconnected, has no socket and no pending timeout;
    the socket it had has its four callbacks detached and is closing, so
    that no later event of that socket reaches the client. After any
    further events and calls the client is still destroyed and without a
    socket, it has constructed no new socket, and [connect()] does
    nothing. *)
Theorem C7_disconnect_is_final
    (u : string) (ok : bool) (evs0 evs : list Event) :
  let w := run (new u ok) evs0 in
  let w1 := disconnect w in
  let w2 := run w1 evs in
  (destroyed w1 = true /\ ws w1 = None /\ connected w1 = false /\
   reconnectTimer w1 = None /\ timers w1 = []) /\
  (forall id, ws w = Some id ->
     detached id w1 /\ closing id w1 /\
     forall ev, socket_of ev = Some id ->
                client_of (step w2 ev) = client_of w2) /\
  (destroyed w2 = true /\ ws w2 = None /\
   length (sockets w2) = length (sockets w1) /\ connect w2 = w2).
Proof.
  intros w w1 w2.
  assert (inv w) as Hinv by apply run_inv, new_inv.
  destruct (disconnect_fields w) as (Hd & Hws & Hc & Hr).
  destruct (later_run evs w1) as [Hdead Hdet].
  destruct (Hdead (conj Hd Hws)) as [[Hd2 Hws2] Hlen].
  split; [|split].
  - repeat split; try done. by apply disconnect_timers.
  - intros id E. destruct (disconnect_socket id w Hinv E) as [D C].
    repeat split; try done.
    intros ev Hev. apply (detached_silent id); [by apply Hdet | done].
  - repeat split; try done. unfold w2, connect. by rewrite Hd2.
Qed.

Lemma C7_disconnect_is_final_witness :
  let w := run (new default_url true) [Api Connect; SocketOpen 0] in
  let w2 := run (disconnect w) [SocketClose 0; TimerFired 1; Api Connect] in
  ws w = Some 0%nat /\ detached 0 (disconnect w) /\
  client_of (step w2 (SocketClose 0)) = client_of w2.
Proof.
  intros w w2.
  destruct (C7_disconnect_is_final default_url true
              [Api Connect; SocketOpen 0]
              [SocketClose 0; TimerFired 1; Api Connect])
    as (_ & H & _).
  assert (ws w = Some 0%nat) as E by reflexivity.
  destruct (H 0%nat E) as (D & _ & S).
  split; [exact E | split; [exact D | exact (S (SocketClose 0) eq_refl)]].
Defined.

(** C8. A client has at most one pending timeout at any time, and it is
    its reconnect timer, with a delay of 5000 ms; [scheduleReconnect] does
    nothing while a timer is pending; and when a socket whose [onclose] is
    installed closes, exactly one timeout is pending afterwards. *)
Theorem C8_one_reconnect_timer (u : string) (ok : bool) (evs : list Event) :
  let w := run (new u ok) evs in
  (length (timers w) <= 1)%nat /\
  (forall h d, (h, d) ∈ timers w -> d = 5000 /\ reconnectTimer w = Some h) /\
  (forall w', is_Some (reconnectTimer w') -> scheduleReconnect w' = w') /\
  (forall id s,
      sockets w !! id = Some s -> readyState s <> CLOSED ->
      onclose s = true ->
      exists h,
        timers (step w (SocketClose id)) = [(h, 5000)] /\
        reconnectTimer (step w (SocketClose id)) = Some h).
Proof.
  intros w.
  assert (inv w) as Hinv by apply run_inv, new_inv.
  pose proof Hinv as [Ht _]. unfold one_timer in Ht.
  repeat apply conj.
  - rewrite Ht. destruct (reconnectTimer w); simpl; lia.
  - intros h d Hin. rewrite Ht in Hin.
    destruct (reconnectTimer w) as [h'|].
    + apply list_elem_of_singleton in Hin. by inversion Hin; subst.
    + by apply not_elem_of_nil in Hin.
  - intros w' [h E]. unfold scheduleReconnect. by rewrite E.
  - intros id s Hs Hr Hc. simpl. rewrite Hs.
    destruct (ReadyState_eqb (readyState s) CLOSED) eqn:E;
      [by destruct (readyState s)|].
    rewrite Hc.
    pose proof (update_socket_inv id (WebSocket_set_readyState CLOSED) _ Hinv)
      as H1.
    destruct (ws_onclose_inv _ H1) as ([Ht2 _] & [h Hh]).
    exists h. unfold one_timer in Ht2. rewrite Hh in Ht2. done.
Qed.

Lemma C8_one_reconnect_timer_witness :
  let w := run (new default_url true) [Api Connect; SocketOpen 0] in
  timers w = [] /\ timers (step w (SocketClose 0)) = [(1%nat, 5000)].
Proof.
  intros w. split; [reflexivity|].
  destruct (C8_one_reconnect_timer default_url true
              [Api Connect; SocketOpen 0])
    as (_ & _ & _ & H).
  destruct (H 0%nat (mkWebSocket OPEN true true true true [identify]))
    as (h & Ht & Hr); [reflexivity | discriminate | reflexivity |].
  unfold w. rewrite Ht. vm_compute in Hr. by inversion Hr.
Defined.

(** C10. [connect()] on a client whose socket is open does nothing: the
    world is the same, so no socket is constructed, no frame is sent and
    no field of the client changes. *)
Theorem C10_connect_when_open (w : World) :
  ws_is_open w = true -> connect w = w /\ step w (Api Connect) = w.
Proof.
  intros H. simpl. unfold connect. rewrite H. by destruct (destroyed w).
Qed.

Lemma C10_connect_when_open_witness :
  let w := run (new default_url true) [Api Connect; SocketOpen 0] in
  ws_is_open w = true /\ connect w = w.
Proof.
  intros w.
  assert (ws_is_open w = true) as H by reflexivity.
  split; [exact H | exact (proj1 (C10_connect_when_open w H))].
Defined.

End Client.

(** * Further properties *)

(** ** The chat log *)

Section ChatLogFacts.
Import ChatLog.

Lemma imap_id_ext {A} (f : nat -> A -> A) (l : list A) :
  (forall i x, l !! i = Some x -> f i x = x) -> imap f l = l.
Proof.
  revert f. induction l as [|a l IH]; intros f H; [done|].
  simpl. f_equal.
  - by apply (H 0%nat).
  - apply IH. intros i x Hx. by apply (H (S i)).
Qed.

(** Editing an entry of the chat log keeps the length of the log and every
    role; an index inside the log replaces the content of that entry alone,
    and an index outside the log (negative, or at or beyond its length)
    leaves the log as it is. *)
Theorem handleChangeChatLog_edits_one_entry
    (chatLog : list Message) (targetIndex : Z) (text : str) :
  let log' := handleChangeChatLog chatLog targetIndex text in
  map role log' = map role chatLog /\
  (forall n m, targetIndex = Z.of_nat n -> chatLog !! n = Some m ->
     log' = <[n := {| role := role m; content := text |}]> chatLog) /\
  ((targetIndex < 0 \/ Z.of_nat (length chatLog) <= targetIndex)%Z ->
     log' = chatLog).
Proof.
  intros log'. unfold log', handleChangeChatLog. repeat apply conj.
  - apply list_eq. intros i. rewrite !list_lookup_fmap, list_lookup_imap.
    destruct (chatLog !! i) as [m|]; simpl; [|done].
    by destruct (Z.of_nat i =? targetIndex)%Z.
  - intros n m -> Hm. apply list_eq. intros i.
    rewrite list_lookup_imap.
    destruct (decide (i = n)) as [->|Hne].
    + rewrite Hm. simpl. rewrite Z.eqb_refl.
      rewrite list_lookup_insert_eq; [done | by apply lookup_lt_Some in Hm].
    + rewrite list_lookup_insert_ne by done.
      destruct (chatLog !! i) as [m'|]; simpl; [|done].
      destruct (Z.eqb_spec (Z.of_nat i) (Z.of_nat n)) as [E|_]; [lia | done].
  - intros Hout. apply imap_id_ext. intros i x Hx.
    apply lookup_lt_Some in Hx.
    destruct (Z.eqb_spec (Z.of_nat i) targetIndex) as [E|_]; [lia | done].
Qed.

Lemma handleChangeChatLog_edits_one_entry_witness :
  let chatLog := [mkMessage "user" (lit "Hi"); mkMessage "assistant" (lit "Helo")] in
  handleChangeChatLog chatLog 1 (lit "Hello")
  = [mkMessage "user" (lit "Hi"); mkMessage "assistant" (lit "Hello")] /\
  handleChangeChatLog chatLog 2 (lit "Hello") = chatLog.
Proof.
  intros chatLog.
  destruct (handleChangeChatLog_edits_one_entry chatLog 1 (lit "Hello"))
    as (_ & H1 & _).
  destruct (handleChangeChatLog_edits_one_entry chatLog 2 (lit "Hello"))
    as (_ & _ & H2).
  split.
  - rewrite (H1 1%nat (mkMessage "assistant" (lit "Helo")) eq_refl eq_refl).
    reflexivity.
  - apply H2. right. simpl. lia.
Defined.

End ChatLogFacts.

(** ** Which unit and which tag are cut *)

Section Choice.
Import Home Spec Facts.

Implicit Types (s u v : str) (k : cont) (p : cls).

(** A greedy run stops as late as the rest of the pattern allows. *)
Lemma many_greedy_longest p s k x :
  many true p s k = Some x ->
  exists u v,
    s = u ++ v /\ Forall (fun c => p c = true) u /\ k v = Some x /\
    forall u' v', s = u' ++ v' -> Forall (fun c => p c = true) u' ->
                  is_Some (k v') -> (length u' <= length u)%nat.
Proof.
  revert x. induction s as [|c s IH]; intros x H; simpl in H.
  - exists [], []. repeat split; auto.
    intros u' v' E _ _. by destruct u'.
  - destruct (p c) eqn:Hc.
    + destruct (many true p s k) as [r|] eqn:Hm.
      * injection H as ->.
        destruct (IH x eq_refl) as (u & v & Es & Hu & Hk & Hmax).
        exists (c :: u), v. repeat split; auto; [by rewrite Es|].
        intros u' v' E Hu' Hk'. destruct u' as [|c' u']; simpl; [lia|].
        injection E as _ E. apply Forall_cons in Hu' as [_ Hu'].
        pose proof (Hmax u' v' E Hu' Hk'). lia.
      * exists [], (c :: s). repeat split; auto.
        intros u' v' E Hu' [y Hk']. destruct u' as [|c' u']; simpl; [lia|].
        injection E as _ E. apply Forall_cons in Hu' as [_ Hu'].
        destruct (many_complete true p u' v' k y Hu' Hk') as [x' Hx'].
        rewrite <- E in Hx'. congruence.
    + exists [], (c :: s). repeat split; auto.
      intros u' v' E Hu' _. destruct u' as [|c' u']; simpl; [lia|].
      injection E as <- _. apply Forall_cons in Hu' as [Hc' _]. congruence.
Qed.

Lemma at_least_greedy_longest p lo : forall s k x,
  at_least true p lo s k = Some x ->
  exists u v,
    s = u ++ v /\ Forall (fun c => p c = true) u /\ (lo <= length u)%nat /\
    k v = Some x /\
    forall u' v', s = u' ++ v' -> Forall (fun c => p c = true) u' ->
                  (lo <= length u')%nat -> is_Some (k v') ->
                  (length u' <= length u)%nat.
Proof.
  induction lo as [|lo IH]; intros s k x H; simpl in H.
  - destruct (many_greedy_longest _ _ _ _ H) as (u & v & ? & ? & ? & Hmax).
    exists u, v. repeat split; auto; [lia|].
    intros u' v' ? ? _ ?. eauto.
  - destruct s as [|c s]; [discriminate|].
    destruct (p c) eqn:Hc; [|discriminate].
    destruct (IH _ _ _ H) as (u & v & Es & Hu & Hlo & Hk & Hmax).
    exists (c :: u), v. repeat split; auto; [by rewrite Es | simpl; lia|].
    intros u' v' E Hu' Hlo' Hk'.
    destruct u' as [|c' u']; simpl in *; [lia|].
    injection E as _ E. apply Forall_cons in Hu' as [_ Hu'].
    assert (lo <= length u')%nat as Hlo'' by lia.
    pose proof (Hmax u' v' E Hu' Hlo'' Hk'). lia.
Qed.

(** A lazy run stops as early as the rest of the pattern allows. *)
Lemma many_lazy_shortest p s k x :
  many false p s k = Some x ->
  exists u v,
    s = u ++ v /\ Forall (fun c => p c = true) u /\ k v = Some x /\
    forall u' v', s = u' ++ v' -> is_Some (k v') ->
                  (length u <= length u')%nat.
Proof.
  revert x. induction s as [|c s IH]; intros x H; simpl in H.
  - exists [], []. repeat split; auto. intros; simpl; lia.
  - destruct (p c) eqn:Hc.
    + destruct (k (c :: s)) as [r|] eqn:Hk.
      * injection H as ->.
        exists [], (c :: s). repeat split; auto. intros; simpl; lia.
      * destruct (IH x H) as (u & v & Es & Hu & Hkv & Hmin).
        exists (c :: u), v. repeat split; auto; [by rewrite Es|].
        intros u' v' E [y Hk']. destruct u' as [|c' u']; simpl in *.
        -- subst v'. congruence.
        -- injection E as _ E.
           pose proof (Hmin u' v' E (ex_intro _ y Hk')). lia.
    + exists [], (c :: s). repeat split; auto. intros; simpl; lia.
Qed.

(** The rest of a pattern that is one character of a class. *)
Lemma cls_cont (q : cls) (v : str) (x : str) :
  Regex.run (Cls q) v Some = Some x <-> exists c, v = c :: x /\ q c = true.
Proof.
  simpl. split.
  - destruct v as [|c v]; [discriminate|].
    destruct (q c) eqn:Hq; [|discriminate].
    intros E. inversion E; subst. eauto.
  - intros (c & -> & Hq). by rewrite Hq.
Qed.

(** One alternative of the sentence pattern: among the prefixes of its
    form, the matcher takes the longest. *)
Lemma alternative_longest (q : cls) (lo : nat) (buf rest : str) :
  Regex.run (Cat (Rep true lo dot) (Cls q)) buf Some = Some rest ->
  exists u,
    buf = u ++ rest /\ candidate q lo buf u /\
    forall u', candidate q lo buf u' -> (length u' <= length u)%nat.
Proof.
  intros H.
  change (at_least true dot lo buf (fun s1 => Regex.run (Cls q) s1 Some)
          = Some rest) in H.
  destruct (at_least_greedy_longest _ _ _ _ _ H)
    as (body & v & -> & Hb & Hlo & Hk & Hmax).
  apply cls_cont in Hk as (c & -> & Hq).
  exists (body ++ [c]). split; [by rewrite <- app_assoc|]. split.
  - exists body, c, rest. repeat split; auto. by rewrite <- app_assoc.
  - intros u' (body' & c' & rest' & -> & E & Hb' & Hlo' & Hq').
    rewrite !length_app. simpl.
    rewrite <- app_assoc in E. simpl in E.
    assert (length body' <= length body)%nat; [|lia].
    apply (Hmax body' (c' :: rest') E Hb' Hlo').
    exists rest'. apply cls_cont. eauto.
Qed.

Lemma alternative_none (q : cls) (lo : nat) (buf : str) :
  Regex.run (Cat (Rep true lo dot) (Cls q)) buf Some = None ->
  forall u, ~ candidate q lo buf u.
Proof.
  intros H u (body & c & rest & -> & -> & Hb & Hlo & Hq).
  assert (lang (Cat (Rep true lo dot) (Cls q)) (body ++ [c]) rest) as L.
  { constructor; [by constructor | by constructor]. }
  destruct (run_complete _ _ _ L Some rest eq_refl) as [x Hx]. congruence.
Qed.

(** The unit a step cuts is the longest prefix of the buffer that is one or
    more characters, none a line terminator, followed by a sentence end; the
    comma form is cut only when the buffer has no prefix of the first form,
    and then it is the longest prefix of at least 10 such characters
    followed by a comma. *)
Theorem extractSentence_cuts_the_longest (buf u out : str) :
  extractSentence buf = (Some u, out) ->
  (sentence_candidate buf u /\
   forall u', sentence_candidate buf u' -> (length u' <= length u)%nat) \/
  (comma_candidate buf u /\
   (forall u', ~ sentence_candidate buf u') /\
   forall u', comma_candidate buf u' -> (length u' <= length u)%nat).
Proof.
  unfold extractSentence, match0, exec, sentencePattern.
  change (Regex.run (Alt (Cat (Rep true 1 dot) (Cls sentence_end))
                         (Cat (Rep true 10 dot) (Cls comma))) buf Some)
    with (match Regex.run (Cat (Rep true 1 dot) (Cls sentence_end)) buf Some with
          | Some x => Some x
          | None => Regex.run (Cat (Rep true 10 dot) (Cls comma)) buf Some
          end).
  destruct (Regex.run (Cat (Rep true 1 dot) (Cls sentence_end)) buf Some)
    as [rest|] eqn:Ha.
  - destruct (alternative_longest _ _ _ _ Ha) as (u0 & -> & Hc & Hmax).
    rewrite take_prefix. destruct (truthy u0); [|discriminate].
    intros E. inversion E; subst. left. by split.
  - destruct (Regex.run (Cat (Rep true 10 dot) (Cls comma)) buf Some)
      as [rest|] eqn:Hb; [|discriminate].
    destruct (alternative_longest _ _ _ _ Hb) as (u0 & -> & Hc & Hmax).
    rewrite take_prefix. destruct (truthy u0); [|discriminate].
    intros E. inversion E; subst. right. split; [done|]. split; [|done].
    by apply alternative_none.
Qed.

Lemma extractSentence_cuts_the_longest_witness :
  let buf := lit "One. Two! Three" in
  extractSentence buf = (Some (lit "One. Two!"), lit "Three") /\
  sentence_candidate buf (lit "One. Two!").
Proof.
  intros buf.
  assert (extractSentence buf = (Some (lit "One. Two!"), lit "Three")) as E
    by (vm_compute; reflexivity).
  split; [exact E|].
  destruct (extractSentence_cuts_the_longest _ _ _ E)
    as [[H _]|(Hc & _ & _)]; [exact H|].
  destruct Hc as (body & c & rest & Hu & _ & _ & _ & Hq).
  assert (lit "One. Two!" = lit "One. Two" ++ [0x21]) as El by reflexivity.
  rewrite El in Hu. apply app_inj_tail in Hu as [_ Hc]. subst c.
  vm_compute in Hq. discriminate Hq.
Defined.

(** *** The tag *)

Lemma first_occurrence (x : code_unit) (b1 b2 r1 r2 : str) :
  b1 ++ x :: r1 = b2 ++ x :: r2 ->
  Forall (fun c => c <> x) b1 -> Forall (fun c => c <> x) b2 -> b1 = b2.
Proof.
  revert b2. induction b1 as [|c b1 IH]; intros b2 E H1 H2.
  - destruct b2 as [|c2 b2]; [done|]. simpl in E. inversion E; subst.
    by inversion H2.
  - destruct b2 as [|c2 b2]; simpl in E; inversion E; subst.
    + by inversion H1.
    + inversion H1; subst. inversion H2; subst. f_equal. by apply IH.
Qed.

Lemma one_of_single (x c : code_unit) : one_of [x] c = true <-> c = x.
Proof.
  unfold one_of. simpl. rewrite orb_false_r. apply N.eqb_eq.
Qed.

Lemma tagPattern_exec (buf rest : str) :
  exec tagPattern buf = Some rest ->
  exists body,
    buf = 0x5B :: body ++ 0x5D :: rest /\
    Forall (fun c => dot c = true) body /\
    Forall (fun c => c <> 0x5D) body.
Proof.
  unfold exec, tagPattern. intros H.
  destruct buf as [|c0 buf]; [discriminate H|].
  change (Regex.run (Cat (Cls (one_of [0x5B]))
                       (Cat (Rep false 0 dot) (Cls (one_of [0x5D]))))
            (c0 :: buf) Some)
    with (if one_of [0x5B] c0
          then many false dot buf
                 (fun s1 => Regex.run (Cls (one_of [0x5D])) s1 Some)
          else None) in H.
  destruct (one_of [0x5B] c0) eqn:H0; [|discriminate H].
  apply one_of_single in H0. subst c0.
  destruct (many_lazy_shortest _ _ _ _ H) as (body & v & -> & Hb & Hk & Hmin).
  apply cls_cont in Hk as (c & -> & Hc). apply one_of_single in Hc. subst c.
  exists body. repeat split; auto.
  apply Forall_forall. intros c Hin ->.
  apply list_elem_of_split in Hin as (b1 & b2 & ->).
  assert (length (b1 ++ 0x5D%N :: b2) <= length b1)%nat as Hlen.
  { apply (Hmin b1 (0x5D :: b2 ++ 0x5D :: rest)).
    - by rewrite <- app_assoc.
    - exists (b2 ++ 0x5D :: rest). apply cls_cont.
      eexists. split; [done|]. by apply one_of_single. }
  rewrite length_app in Hlen. simpl in Hlen. lia.
Qed.

(** A tag is detected exactly when the buffer starts with [[] and a []]
    follows before any line terminator; the tag ends at the first []], so it
    holds no []] and no line terminator between its brackets. *)
Theorem detectTag_first_closing_bracket (buf t : str) :
  detectTag buf = Some t <->
  exists body rest,
    buf = 0x5B :: body ++ 0x5D :: rest /\ t = 0x5B :: body ++ [0x5D] /\
    Forall (fun c => is_line_terminator c = false) body /\
    Forall (fun c => c <> 0x5D) body.
Proof.
  assert (Hdot : forall body : str,
             Forall (fun c => dot c = true) body <->
             Forall (fun c => is_line_terminator c = false) body).
  { intros body. apply Forall_iff. intros c. unfold dot.
    by destruct (is_line_terminator c). }
  unfold detectTag, match0. split.
  - destruct (exec tagPattern buf) as [rest|] eqn:E; [|discriminate].
    destruct (tagPattern_exec _ _ E) as (body & -> & Hb & Hn).
    replace (0x5B :: body ++ 0x5D :: rest)
      with ((0x5B :: body ++ [0x5D]) ++ rest)
      by (simpl; by rewrite <- app_assoc).
    rewrite take_prefix. simpl. intros Et. injection Et as <-.
    exists body, rest.
    split; [simpl; by rewrite <- app_assoc|].
    split; [done|]. split; [by apply Hdot | done].
  - intros (body & rest & Ebuf & Et & Hb & Hn).
    assert (lang tagPattern (0x5B :: body ++ [0x5D]) rest) as L.
    { unfold tagPattern.
      apply (lang_cat _ _ [0x5B] (body ++ [0x5D])).
      - constructor. by apply one_of_single.
      - constructor; [constructor; [by apply Hdot | lia]|].
        constructor. by apply one_of_single. }
    destruct (run_complete _ _ _ L Some rest eq_refl) as [x Hx].
    cbn [app] in Hx. rewrite <- app_assoc in Hx. cbn [app] in Hx.
    destruct (tagPattern_exec _ _ Hx) as (body' & E & _ & Hn').
    injection E as E.
    pose proof (first_occurrence _ _ _ _ _ E Hn Hn') as <-.
    apply app_inv_head in E. injection E as <-.
    assert (exec tagPattern buf = Some rest) as Hbuf
      by (rewrite Ebuf; exact Hx).
    assert (take (length buf - length (rest : str)) buf = t) as Htake.
    { pose proof (take_prefix (0x5B :: body ++ [0x5D]) rest) as Ht.
      cbn [app] in Ht. rewrite <- app_assoc in Ht. cbn [app] in Ht.
      rewrite Ebuf, Et. exact Ht. }
    rewrite Hbuf. cbn beta iota. rewrite Htake, Et. done.
Qed.

End Choice.

(** ** The stream, the units and the reply *)

Section Stream.
Import Home Spec Facts.

Lemma detectTag_rest (old buf : str) :
  buf = default [] (detectTag buf) ++ snd (extractTag old buf).
Proof.
  unfold extractTag. destruct (detectTag buf) as [t|] eqn:E; [|done].
  destruct (detectTag_strips old _ _ E) as (_ & rest & Hb & _).
  simpl. unfold slice. rewrite Hb at 1. f_equal.
  rewrite Hb. by rewrite drop_app_length.
Qed.

(** One pass takes a tag, a unit and the white space after the unit from
    the front of the buffer and the chunk, and leaves the rest. *)
Lemma onChunk_conserves (s : Turn) (value : str) :
  exists gap,
    Forall (fun c => is_space c = true) gap /\
    receivedMessage s ++ value
    = consumed (snd (onChunk s value)) gap
      ++ receivedMessage (fst (onChunk s value)).
Proof.
  pose proof (detectTag_rest (tag s) (receivedMessage s ++ value)) as Ht.
  unfold onChunk, consumed.
  destruct (extractTag (tag s) (receivedMessage s ++ value)) as [t1 b1] eqn:Et.
  simpl in Ht.
  destruct (extractSentence b1) as [[u|] out] eqn:Es.
  - destruct (extractSentence_some _ _ _ Es) as (rest & -> & -> & _ & _).
    destruct (trimStart_left_trimmed rest) as (ws & Hr & Hws & _).
    exists ws. split; [done|].
    destruct (unspeakable u); simpl; rewrite Ht at 1; rewrite Hr at 1;
      by rewrite !app_assoc.
  - apply extractSentence_none in Es. subst out.
    exists []. split; [constructor|]. simpl. rewrite ?app_nil_r. exact Ht.
Qed.

(** Nothing of the stream is lost or reordered while it is read: the chunks
    received so far, put together, are the tags, the units and the trimmed
    white space of the passes in order, followed by the buffer. *)
Theorem readLoop_conserves_the_stream (cs : list str) :
  let r := readLoop newTurn cs in
  exists gaps : list str,
    length gaps = length cs /\
    Forall (Forall (fun c => is_space c = true)) gaps /\
    concat cs = concat (zip_with consumed (snd r) gaps)
                ++ receivedMessage (fst r).
Proof.
  assert (forall (cs : list str) (s : Turn),
             exists gaps : list str,
               length gaps = length cs /\
               Forall (Forall (fun c => is_space c = true)) gaps /\
               receivedMessage s ++ concat cs
               = concat (zip_with consumed (snd (readLoop s cs)) gaps)
                 ++ receivedMessage (fst (readLoop s cs))) as H.
  { clear cs. induction cs as [|value cs IH]; intros s.
    - exists []. repeat split; auto. simpl. by rewrite app_nil_r.
    - rewrite readLoop_cons. simpl fst. simpl snd.
      destruct (onChunk_conserves s value) as (gap & Hgap & E).
      destruct (IH (fst (onChunk s value))) as (gaps & Hlen & Hgaps & E').
      exists (gap :: gaps). repeat split; auto; [simpl; lia|].
      simpl.
      rewrite (app_assoc (receivedMessage s) value (concat cs)), E.
      rewrite <- (app_assoc (consumed (snd (onChunk s value)) gap)), E'.
      by rewrite (app_assoc (consumed (snd (onChunk s value)) gap)). }
  intros r. apply (H cs newTurn).
Qed.

(** *** The reply that is logged *)

Lemma onChunk_aiTextLog (s : Turn) (value : str) :
  aiTextLog (fst (onChunk s value))
  = aiTextLog s
    ++ concat (map aiText (option_list (dispatched (snd (onChunk s value))))).
Proof.
  unfold onChunk. destruct (extractTag _ _) as [t1 b1].
  destruct (extractSentence b1) as [[u|] out]; simpl;
    [destruct (unspeakable u); simpl|]; by rewrite ?app_nil_r.
Qed.

Lemma readLoop_aiTextLog (cs : list str) : forall s : Turn,
  aiTextLog (fst (readLoop s cs))
  = aiTextLog s ++ concat (map aiText (dispatches (snd (readLoop s cs)))).
Proof.
  induction cs as [|value cs IH]; intros s.
  - simpl. by rewrite app_nil_r.
  - rewrite readLoop_cons. simpl fst. simpl snd.
    rewrite IH, onChunk_aiTextLog, dispatches_cons, map_app, concat_app.
    by rewrite <- app_assoc.
Qed.

(** The assistant entry [handleSendChat] adds to the chat log when the
    stream has ended, or has failed, holds exactly the texts given to the
    speech dispatcher during the turn, in the order of the calls; the user's
    message comes just before it and the older entries are kept. *)
Theorem messageLogAssistant_is_what_was_spoken
    (chatLog : list ChatLog.Message) (text : str)
    (s : State) (evs : list Event) :
  let s' := run (startTurn s) evs in
  exists ds,
    calls s' = calls s ++ ds /\
    ChatLog.messageLogAssistant chatLog text (aiTextLog (turn s'))
    = chatLog ++ [ChatLog.mkMessage "user" text;
                  ChatLog.mkMessage "assistant" (concat (map aiText ds))].
Proof.
  intros s'.
  destruct (startTurn_state s) as (Hph & Ht & Hc & _).
  destruct (run_reading evs (startTurn s) Hph) as [Hcalls Hturn].
  fold s' in Hcalls, Hturn. rewrite Ht in Hcalls, Hturn. rewrite Hc in Hcalls.
  exists (dispatches (snd (readLoop newTurn (chunks evs)))).
  split; [exact Hcalls|].
  unfold ChatLog.messageLogAssistant, ChatLog.messageLog.
  rewrite Hturn, readLoop_aiTextLog. simpl. by rewrite <- app_assoc.
Qed.

(** *** What is never spoken *)

(** A unit that is dispatched is never made of white space, brackets and
    quotation marks alone, and it ends the way a unit does. *)
Theorem dispatched_units_are_speakable (cs : list str) (d : Dispatch) :
  d ∈ dispatches (snd (readLoop newTurn cs)) ->
  ~ bracket_only (sentence d) /\
  (terminated_unit (sentence d) \/ comma_unit (sentence d)) /\
  exists t, aiText d = t ++ space ++ sentence d.
Proof.
  assert (forall (cs : list str) (s : Turn),
             d ∈ dispatches (snd (readLoop s cs)) ->
             ~ bracket_only (sentence d) /\
             (terminated_unit (sentence d) \/ comma_unit (sentence d)) /\
             exists t, aiText d = t ++ space ++ sentence d) as H.
  { clear cs. induction cs as [|value cs IH]; intros s Hin.
    - by apply not_elem_of_nil in Hin.
    - rewrite readLoop_cons in Hin. simpl snd in Hin.
      rewrite dispatches_cons in Hin. apply elem_of_app in Hin as [Hin|Hin];
        [|by eapply IH].
      destruct (dispatched (snd (onChunk s value))) as [d0|] eqn:Ed;
        [|by apply not_elem_of_nil in Hin].
      apply list_elem_of_singleton in Hin. subst d0.
      destruct (onChunk_tag s value) as [_ Hcall].
      destruct (Hcall d Ed) as (Hai & Hex & Hun).
      split; [|split].
      + intros Hall.
        assert (sentence d <> []) as Hne.
        { revert Hex. unfold onChunk. destruct (extractTag _ _) as [t1 b1].
          destruct (extractSentence b1) as [[u|] out] eqn:Es;
            [|by destruct (dispatched _)].
          destruct (extractSentence_some _ _ _ Es) as (_ & _ & _ & Hne & _).
          destruct (unspeakable u); simpl; intros E; by inversion E; subst. }
        rewrite (bracket_only_unspeakable _ Hall Hne) in Hun. discriminate.
      + revert Hex. unfold onChunk. destruct (extractTag _ _) as [t1 b1].
        destruct (extractSentence b1) as [[u|] out] eqn:Es.
        * destruct (extractSentence_some _ _ _ Es) as (rest & _ & _ & _ & L).
          destruct (unspeakable u); simpl; intros E; inversion E; subst;
            by eapply sentencePattern_unit.
        * simpl. discriminate.
      + eauto. }
  apply (H cs newTurn).
Qed.

Lemma dispatched_units_are_speakable_witness :
  let d := {| sentence := lit "(Hm."; aiText := lit " (Hm.";
              currentAssistantMessage := lit "(Hm." |} in
  ~ bracket_only (sentence d).
Proof.
  intros d.
  destruct (dispatched_units_are_speakable [lit "(Hm.)"] d) as (H & _).
  - vm_compute. apply list_elem_of_singleton. reflexivity.
  - exact H.
Defined.

(** *** A buffer that starts with a line end *)

Lemma line_terminator_cases (c : code_unit) :
  is_line_terminator c = true ->
  one_of [0x5B] c = false /\ dot c = false.
Proof.
  intros H. unfold dot. rewrite H. split; [|done].
  unfold is_line_terminator in H.
  repeat (apply orb_prop in H as [H|H]); apply N.eqb_eq in H; by subst.
Qed.

Lemma detectTag_head (c : code_unit) (x : str) :
  one_of [0x5B] c = false -> detectTag (c :: x) = None.
Proof.
  intros H. unfold detectTag, match0, exec, tagPattern.
  cbn [Regex.run]. by rewrite H.
Qed.

Lemma extractSentence_head (c : code_unit) (x : str) :
  dot c = false -> extractSentence (c :: x) = (None, c :: x).
Proof.
  intros H. unfold extractSentence, match0, exec, sentencePattern.
  cbn [Regex.run at_least]. by rewrite H.
Qed.

Lemma onChunk_stalled (s : Turn) (value : str) c rest :
  receivedMessage s = c :: rest -> is_line_terminator c = true ->
  idle_pass (snd (onChunk s value)) /\
  receivedMessage (fst (onChunk s value)) = receivedMessage s ++ value.
Proof.
  intros Hb Hc. destruct (line_terminator_cases c Hc) as [H1 H2].
  unfold idle_pass, onChunk, extractTag. rewrite Hb. cbn [app].
  rewrite (detectTag_head _ _ H1), (extractSentence_head _ _ H2). done.
Qed.

(** When the buffer starts with a line terminator (a reply whose first
    character is a line end, or a line end right after a tag), no later
    pass of the turn detects a tag, cuts a unit or dispatches: the chunks
    only pile up in the buffer. *)
Theorem line_end_first_stalls_the_turn
    (s : Turn) (cs : list str) (c : code_unit) (rest : str) :
  receivedMessage s = c :: rest -> is_line_terminator c = true ->
  Forall idle_pass (snd (readLoop s cs)) /\
  receivedMessage (fst (readLoop s cs)) = receivedMessage s ++ concat cs.
Proof.
  revert s rest. induction cs as [|value cs IH]; intros s rest Hb Hc.
  - simpl. by rewrite app_nil_r.
  - rewrite readLoop_cons. simpl fst. simpl snd.
    destruct (onChunk_stalled s value c rest Hb Hc) as [Hidle Hrm].
    destruct (IH (fst (onChunk s value)) (rest ++ value)) as [Hall Hrm'];
      [by rewrite Hrm, Hb | done |].
    split; [by constructor|].
    rewrite Hrm', Hrm. simpl. by rewrite <- app_assoc.
Qed.

Lemma line_end_first_stalls_the_turn_witness :
  let s := fst (onChunk newTurn (lit "[happy]" ++ 0x0A :: lit "Hello.")) in
  receivedMessage s = 0x0A :: lit "Hello." /\
  dispatches (snd (readLoop s [lit " How are you?"; lit " Fine."])) = [].
Proof.
  intros s.
  assert (receivedMessage s = 0x0A :: lit "Hello.") as Hb
    by (vm_compute; reflexivity).
  split; [exact Hb|].
  destruct (line_end_first_stalls_the_turn s
              [lit " How are you?"; lit " Fine."] 0x0A (lit "Hello.") Hb
              eq_refl) as [Hall _].
  unfold dispatches. induction Hall as [|p ps (_ & _ & Hd) _ IH]; [done|].
  simpl. by rewrite Hd.
Defined.

End Stream.

(** ** The flags of the page during a turn *)

Section Flags.
Import Home Spec Facts.

Ltac page :=
  unfold effect, loopBody, handleSpeakAi_call, handleSpeakAi_resume,
    handleSendChat_finish, handleSendChat_call, handleSendChat_stream,
    onPlaybackStart, onPlaybackEnd, try_finally, try_catch, settled, bind,
    modify, ret, forget, speakCharacter, with_turn, with_pending, with_phase,
    setChatProcessing, setIsPlayingAudio, setIsAISpeaking,
    setAssistantMessage, rerender;
  repeat match goal with
    | |- context [if deps_changed ?a ?b then _ else _] =>
        destruct (deps_changed a b)
    end;
  simpl.

Lemma step_turn_flag (s : State) (ev : Event) :
  turn_flag s -> turn_flag (step s ev).
Proof.
  intros H. destruct ev as [value| |e|call|call|call o]; simpl.
  - destruct H as [[Hp Hc]|[Hp Hc]]; rewrite Hp; [|by right].
    left. unfold effect, loopBody.
    destruct (onChunk (turn s) value) as [t1 p].
    destruct (dispatched p) as [d|]; page; by rewrite ?Hp, ?Hc.
  - destruct H as [[Hp Hc]|[Hp Hc]]; rewrite Hp; [|by right].
    right. by page.
  - destruct H as [[Hp Hc]|[Hp Hc]]; rewrite Hp; [|by right].
    right. by page.
  - destruct (calls s !! call) as [d|]; [|done].
    destruct (is_pending call s); [|done].
    destruct H as [[Hp Hc]|[Hp Hc]]; [left | right]; page;
      by rewrite ?Hp, ?Hc.
  - destruct (is_pending call s); [|done].
    destruct H as [[Hp Hc]|[Hp Hc]]; [left | right]; page;
      by rewrite ?Hp, ?Hc.
  - destruct (is_pending call s); [|done].
    destruct H as [[Hp Hc]|[Hp Hc]]; [left | right];
      destruct o as [[]|e]; page; by rewrite ?Hp, ?Hc.
Qed.

Lemma run_turn_flag (evs : list Event) : forall s : State,
  turn_flag s -> turn_flag (run s evs).
Proof.
  induction evs as [|ev evs IH]; intros s H; [done|].
  apply (IH (step s ev)), step_turn_flag, H.
Qed.

Lemma startTurn_turn_flag (s : State) : turn_flag (startTurn s).
Proof. left. unfold startTurn. by page. Qed.

(** From the moment the stream of a turn is obtained until it ends, the
    callback registered with the websocket service refuses every message;
    when the stream has ended, normally or by a read error,
    [chatProcessing] is clear again. *)
Theorem the_gate_is_closed_while_reading (s : State) (evs : list Event) :
  callback_is_current s ->
  let s' := run (startTurn s) evs in
  (phase s' = Reading ->
   forall message,
     llmCallback_call (llmCallback s') message = Return busy_refusal) /\
  (phase s' <> Reading -> phase s' = Idle /\ chatProcessing s' = false).
Proof.
  intros Hcur s'.
  pose proof (run_turn_flag evs _ (startTurn_turn_flag s)) as Hflag.
  pose proof (run_current evs _ (startTurn_current s Hcur)) as Hc.
  fold s' in Hflag, Hc. split.
  - intros Hp message. destruct Hflag as [[_ Hcp]|[Hp' _]]; [|congruence].
    unfold llmCallback_call. rewrite Hc. simpl. rewrite Hcp.
    by rewrite !orb_true_r.
  - intros Hp. destruct Hflag as [[Hp' _]|H]; [congruence | exact H].
Qed.

Lemma the_gate_is_closed_while_reading_witness :
  let s' := run (startTurn mount) [ReadChunk (lit "Hi")] in
  phase s' = Reading /\
  llmCallback_call (llmCallback s') (lit "again") = Return busy_refusal.
Proof.
  intros s'.
  destruct (the_gate_is_closed_while_reading mount [ReadChunk (lit "Hi")]
              eq_refl) as [H _].
  split; [reflexivity | apply H; reflexivity].
Defined.

(** *** The speaking flag and the pending calls *)

Lemma existsb_filter_ne (c call : nat) (l : list nat) :
  existsb (Nat.eqb c) (filter (fun i => i <> call) l)
  = if decide (c = call) then false else existsb (Nat.eqb c) l.
Proof.
  induction l as [|i l IH]; simpl; [by case_decide|].
  rewrite filter_cons. destruct (decide (i <> call)) as [Hi|Hi]; simpl.
  - rewrite IH. destruct (decide (c = call)) as [->|Hc]; [|done].
    destruct (Nat.eqb_spec call i); [congruence | done].
  - rewrite IH. destruct (decide (c = call)) as [->|Hc]; [done|].
    destruct (Nat.eqb_spec c i) as [->|]; [|done].
    destruct (decide (i = call)); [congruence | tauto].
Qed.

(** The call that settles resets [isAISpeaking] for all of them: after the
    settlement of a pending call the flag is clear, that call is no longer
    pending, and every other call is pending exactly as before. *)
Theorem the_first_settlement_clears_the_flag
    (s : State) (call : nat) (o : completion unit) :
  is_pending call s = true ->
  let s' := step s (Settle call o) in
  isAISpeaking s' = false /\ is_pending call s' = false /\
  forall c, c <> call -> is_pending c s' = is_pending c s.
Proof.
  intros Hp s'. unfold s'. simpl. rewrite Hp.
  destruct (resume_effect o (forget call s)) as (_ & _ & _ & Hpend & Hf & _).
  split; [exact Hf|].
  unfold is_pending. rewrite Hpend. unfold forget, with_pending. simpl.
  split; [|intros c Hc]; rewrite existsb_filter_ne; by case_decide.
Qed.

Lemma the_first_settlement_clears_the_flag_witness :
  let s := run (startTurn mount)
             [ReadChunk (lit "One."); ReadChunk (lit "Two.")] in
  let s' := step s (Settle 0 (Normal tt)) in
  isAISpeaking s' = false /\ is_pending 1 s' = true.
Proof.
  intros s s'.
  destruct (the_first_settlement_clears_the_flag s 0%nat (Normal tt) eq_refl)
    as (Hf & _ & Hother).
  split; [exact Hf|].
  unfold s'. rewrite (Hother 1%nat); [reflexivity | discriminate].
Defined.

End Flags.

(** ** More on the avatar client *)

Section ClientMore.
Import AvatarClient Spec Facts.

Implicit Types (w : World) (id : nat).

(** *** [disconnect] and [connect] *)

Lemma disconnect_of_disconnected w :
  destroyed w = true -> ws w = None -> reconnectTimer w = None ->
  connected w = false -> disconnect w = w.
Proof.
  destruct w. simpl. intros -> -> -> ->. reflexivity.
Qed.

(** [disconnect()] twice is [disconnect()] once. *)
Theorem disconnect_twice w : disconnect (disconnect w) = disconnect w.
Proof.
  destruct (disconnect_fields w) as (Hd & Hws & Hc & Hr).
  by apply disconnect_of_disconnected.
Qed.

(** [connect()] leaves the world as it is exactly when the client is
    destroyed, or its socket is open, or no socket can be constructed and a
    reconnect timer is already pending. In every other state where a socket
    can be constructed, also when the current socket is still connecting,
    it constructs one more socket and makes it the current one, and leaves
    the earlier sockets as they are. *)
Theorem connect_does_nothing_iff w :
  (connect w = w <->
   destroyed w = true \/ ws_is_open w = true \/
   (constructible w = false /\ is_Some (reconnectTimer w))) /\
  (destroyed w = false -> ws_is_open w = false -> constructible w = true ->
   sockets (connect w) = sockets w ++ [fresh_socket] /\
   ws (connect w) = Some (length (sockets w))).
Proof.
  split.
  - unfold connect, scheduleReconnect.
    destruct (destroyed w) eqn:Ed; [by split; [left|]|].
    destruct (ws_is_open w) eqn:Eo; [by split; [right; left|]|].
    destruct (constructible w) eqn:Ec.
    + split.
      * intros E. apply (f_equal (fun c => length (sockets c))) in E.
        simpl in E. rewrite length_app in E. simpl in E. lia.
      * intros [H|[H|[H _]]]; discriminate.
    + destruct (reconnectTimer w) as [h|] eqn:Er.
      * split; [intros _; right; right; eauto | done].
      * split.
        -- intros E. apply (f_equal reconnectTimer) in E. simpl in E.
           congruence.
        -- intros [H|[H|[_ [h H]]]]; discriminate.
  - intros Ed Eo Ec. unfold connect. by rewrite Ed, Eo, Ec.
Qed.

Lemma connect_does_nothing_iff_witness :
  let w := connect (new default_url true) in
  ws_is_open w = false /\
  length (sockets (connect w)) = 2%nat /\ ws (connect w) = Some 1%nat /\
  sockets (connect w) !! 0%nat = Some fresh_socket.
Proof.
  intros w.
  destruct (connect_does_nothing_iff w) as [_ H].
  destruct (H eq_refl eq_refl eq_refl) as [Hs Hw].
  split; [reflexivity|]. rewrite Hs, Hw. repeat split.
Defined.

(** *** A successful open *)

Lemma ws_onopen_timers w :
  inv w -> timers (ws_onopen w) = [] /\ reconnectTimer (ws_onopen w) = None.
Proof.
  intros H. unfold ws_onopen.
  assert (inv (set_connected true w)) as H1 by (destruct H; by split).
  pose proof (handlers_inv true (connectionHandlers (set_connected true w))
                _ H1) as H2.
  fold (notifyConnectionChange true (set_connected true w)) in H2.
  destruct (cancelReconnect_inv _ H2) as (_ & Hr & Ht).
  set (c2 := cancelReconnect _) in *.
  destruct (ws c2) as [i|]; [|done].
  destruct (sockets c2 !! i) as [s|]; [|done].
  by destruct (WebSocket_send identify s).
Qed.

(** When a socket whose [onopen] is installed opens, no reconnect timer is
    left: a timeout that was pending will not fire and connect again. *)
Theorem open_cancels_the_reconnect_timer
    (u : string) (ok : bool) (evs : list Event) (id : nat) (s : WebSocket) :
  let w := run (new u ok) evs in
  sockets w !! id = Some s -> readyState s = CONNECTING -> onopen s = true ->
  timers (step w (SocketOpen id)) = [] /\
  reconnectTimer (step w (SocketOpen id)) = None.
Proof.
  intros w Hs Hr Ho. simpl. rewrite Hs, Hr, Ho. simpl.
  apply ws_onopen_timers, update_socket_inv, run_inv, new_inv.
Qed.

Lemma open_cancels_the_reconnect_timer_witness :
  let w := run (new default_url true)
             [Api Connect; SocketClose 0; Api Connect] in
  timers w = [(1%nat, 5000)] /\ timers (step w (SocketOpen 1)) = [].
Proof.
  intros w. split; [reflexivity|].
  apply (open_cancels_the_reconnect_timer default_url true
           [Api Connect; SocketClose 0; Api Connect] 1%nat fresh_socket);
    reflexivity.
Defined.

(** *** When no socket can be constructed *)

Lemma scheduleReconnect_never w :
  never_connected w -> never_connected (scheduleReconnect w).
Proof.
  intros H. unfold scheduleReconnect. by destruct (reconnectTimer w).
Qed.

Lemma connect_never w : never_connected w -> never_connected (connect w).
Proof.
  intros H. pose proof H as (Hc & Hs & Hw & Hn). unfold connect.
  destruct (destroyed w); [done|].
  destruct (ws_is_open w); [done|].
  rewrite Hc. by apply scheduleReconnect_never.
Qed.

Lemma disconnect_never w : never_connected w -> never_connected (disconnect w).
Proof.
  intros (Hc & Hs & Hw & Hn). unfold disconnect, cancelReconnect. simpl.
  destruct (reconnectTimer w); simpl; rewrite Hw; done.
Qed.

Lemma send_never m w : never_connected w -> send m w = w.
Proof.
  intros (Hc & Hs & Hw & Hn). unfold send, isConnected. by rewrite Hn.
Qed.

Lemma perform_never w call : never_connected w -> never_connected (perform w call).
Proof.
  intros H. destruct call; simpl;
    [by apply connect_never | by apply disconnect_never
     | by rewrite send_never].
Qed.

Lemma handlers_never {A} (x : A) (hs : list (A -> list Call)) : forall w,
  never_connected w ->
  never_connected (fold_left (fun c h => fold_left perform (h x) c) hs w).
Proof.
  assert (forall (l : list Call) w,
             never_connected w -> never_connected (fold_left perform l w))
    as Hl.
  { induction l as [|c l IH]; intros w H; [done|].
    simpl. by apply IH, perform_never. }
  induction hs as [|h hs IH]; intros w H; [done|].
  simpl. by apply IH, Hl.
Qed.

Lemma step_never w ev : never_connected w -> never_connected (step w ev).
Proof.
  intros H. pose proof H as (Hc & Hs & Hw & Hn).
  destruct ev as [call|h|h|i|i data|i|i|h]; simpl;
    rewrite ?Hs; try done.
  - by apply perform_never.
  - destruct (pending_timer h w); [|done].
    unfold reconnect_timeout. by apply connect_never.
Qed.

Lemma run_never (evs : list Event) : forall w,
  never_connected w -> never_connected (run w evs).
Proof.
  induction evs as [|ev evs IH]; intros w H; [done|].
  apply (IH (step w ev)), step_never, H.
Qed.

(** When [new WebSocket(url)] throws, the client never has a socket and is
    never connected, whatever happens; as long as it is not destroyed,
    [connect()] leaves exactly one reconnect timeout of 5000 ms pending, and
    so does every firing of that timeout: the client retries for ever. *)
Theorem construction_failure_retries (u : string) (evs : list Event) :
  let w := run (new u false) evs in
  sockets w = [] /\ isConnected w = false /\
  (destroyed w = false -> exists h, timers (connect w) = [(h, 5000)]) /\
  (destroyed w = false -> forall h, pending_timer h w = true ->
     exists h', timers (step w (TimerFired h)) = [(h', 5000)]).
Proof.
  intros w.
  assert (never_connected w) as (Hc & Hs & Hw & Hn)
    by (by apply run_never).
  assert (inv w) as Hinv by apply run_inv, new_inv.
  assert (ws_is_open w = false) as Ho by (unfold ws_is_open; by rewrite Hw).
  split; [done|]. split; [unfold isConnected; by rewrite Hn|]. split.
  - intros Hd. unfold connect. rewrite Hd, Ho, Hc.
    destruct (scheduleReconnect_inv _ Hinv) as ([Ht _] & [h Hh]).
    exists h. unfold one_timer in Ht. by rewrite Hh in Ht.
  - intros Hd h Hp. simpl. rewrite Hp.
    pose proof (step_inv w (TimerFired h) Hinv) as [Ht _].
    simpl in Ht. rewrite Hp in Ht. unfold one_timer in Ht.
    assert (is_Some (reconnectTimer (reconnect_timeout (clearTimeout h w))))
      as [h' Hh'].
    { unfold reconnect_timeout, connect. simpl. rewrite Hd.
      assert (ws_is_open (set_reconnectTimer None (clearTimeout h w)) = false)
        as -> by (unfold ws_is_open; simpl; by rewrite Hw).
      rewrite Hc. unfold scheduleReconnect. simpl. eauto. }
    exists h'. by rewrite Hh' in Ht.
Qed.

Lemma construction_failure_retries_witness :
  let w := run (new default_url false) [Api Connect] in
  timers w = [(1%nat, 5000)] /\
  timers (step w (TimerFired 1)) = [(2%nat, 5000)].
Proof.
  intros w. split; [reflexivity|].
  destruct (construction_failure_retries default_url [Api Connect])
    as (_ & _ & _ & H).
  destruct (H eq_refl 1%nat eq_refl) as [h' Hh'].
  unfold w. rewrite Hh'. vm_compute in Hh'. by injection Hh' as <-.
Defined.

End ClientMore.

(** ** A client left to itself *)

Section Tidy.
Import AvatarClient Spec Facts.

Implicit Types (w : World) (id : nat).

Lemma alike_refl w : alike w w.
Proof. by split. Qed.

Lemma alike_trans w1 w2 w3 : alike w1 w2 -> alike w2 w3 -> alike w1 w3.
Proof. intros [A1 B1] [A2 B2]. split; congruence. Qed.

Lemma alike_fields w w' :
  alike w w' ->
  ws w' = ws w /\ reconnectTimer w' = reconnectTimer w /\
  timers w' = timers w /\ connected w' = connected w /\
  destroyed w' = destroyed w /\ constructible w' = constructible w /\
  commandHandlers w' = commandHandlers w /\
  connectionHandlers w' = connectionHandlers w /\
  nextTimer w' = nextTimer w.
Proof.
  intros [E _].
  pose proof (f_equal ws E) as E1. pose proof (f_equal reconnectTimer E) as E2.
  pose proof (f_equal timers E) as E3. pose proof (f_equal connected E) as E4.
  pose proof (f_equal destroyed E) as E5.
  pose proof (f_equal constructible E) as E6.
  pose proof (f_equal commandHandlers E) as E7.
  pose proof (f_equal connectionHandlers E) as E8.
  pose proof (f_equal nextTimer E) as E9.
  simpl in *. by repeat split.
Qed.

Lemma shapes_lookup w w' id s' :
  map shape (sockets w) = map shape (sockets w') ->
  sockets w' !! id = Some s' ->
  exists s, sockets w !! id = Some s /\ shape s = shape s'.
Proof.
  intros E Hs. apply (f_equal (fun l => l !! id)) in E.
  rewrite !list_lookup_fmap, Hs in E. simpl in E.
  destruct (sockets w !! id) as [s|]; [|discriminate].
  exists s. split; [done|]. simpl in E. congruence.
Qed.

Lemma insert_alike w i s s' :
  sockets w !! i = Some s -> shape s' = shape s ->
  alike w (set_sockets (<[i := s']> (sockets w)) w).
Proof.
  intros Hs Hsh. split; [done|]. simpl.
  rewrite list_fmap_insert, Hsh.
  symmetry. apply list_insert_id. by rewrite list_lookup_fmap, Hs.
Qed.

Lemma send_alike m w : alike w (send m w).
Proof.
  unfold send. destruct (negb (isConnected w)); [apply alike_refl|].
  destruct (ws w) as [i|]; [|apply alike_refl].
  destruct (sockets w !! i) as [s|] eqn:Hs; [|apply alike_refl].
  destruct (WebSocket_send m s) as [s'|] eqn:E; [|apply alike_refl].
  apply (insert_alike w i s s' Hs).
  unfold WebSocket_send in E. destruct (readyState s) eqn:Er;
    inversion E; subst; unfold shape; simpl; by rewrite ?Er.
Qed.

Lemma sends_alike (l : list Call) : forall w,
  Forall is_send l -> alike w (fold_left perform l w).
Proof.
  induction l as [|c l IH]; intros w H; [apply alike_refl|].
  apply Forall_cons in H as [Hc Hl]. simpl.
  eapply alike_trans; [|by apply IH].
  destruct c; try done. apply send_alike.
Qed.

Lemma handlers_alike {A} (x : A) (hs : list (A -> list Call)) : forall w,
  Forall sends_only hs ->
  alike w (fold_left (fun c h => fold_left perform (h x) c) hs w).
Proof.
  induction hs as [|h hs IH]; intros w H; [apply alike_refl|].
  apply Forall_cons in H as [Hh Hhs]. simpl.
  eapply alike_trans; [apply sends_alike, Hh | by apply IH].
Qed.

(** What [tidy] looks at. *)
Lemma tidy_same w w' :
  ws w' = ws w -> reconnectTimer w' = reconnectTimer w ->
  timers w' = timers w -> commandHandlers w' = commandHandlers w ->
  connectionHandlers w' = connectionHandlers w ->
  map shape (sockets w) = map shape (sockets w') ->
  tidy w -> tidy w'.
Proof.
  intros Ews Er Et Ec En Es ([Hone Hex] & [Hq1 Hq2] & H1 & H2).
  assert (length (sockets w') = length (sockets w)) as Hlen.
  { apply (f_equal length) in Es. by rewrite !length_map in Es. }
  split; [split|split; [split|split]].
  - unfold one_timer. by rewrite Et, Er.
  - intros i. rewrite Ews, Hlen. apply Hex.
  - by rewrite Ec.
  - by rewrite En.
  - intros i s' Hs' Hne. rewrite Ews in Hne.
    destruct (shapes_lookup _ _ _ _ Es Hs') as (s & Hs & Hsh).
    unfold shape in Hsh. injection Hsh as E1 E2 E3 E4 E5.
    destruct (H1 i s Hs Hne) as [Hc|[Hc (N1 & N2 & N3 & N4)]];
      [left | right; split; [|unfold all_null; repeat split]]; congruence.
  - rewrite Er. intros Hsome i s' Hw Hs'. rewrite Ews in Hw.
    destruct (shapes_lookup _ _ _ _ Es Hs') as (s & Hs & Hsh).
    unfold shape in Hsh. injection Hsh as E1 _ _ _ _.
    rewrite <- E1. by apply (H2 Hsome i s).
Qed.

Lemma tidy_alike w w' : alike w w' -> tidy w -> tidy w'.
Proof.
  intros A. pose proof (alike_fields _ _ A) as (? & ? & ? & _ & _ & _ & ? & ? & _).
  destruct A as [_ Es]. by apply tidy_same.
Qed.

Lemma ws_closed_alike w w' : alike w w' -> ws_closed w -> ws_closed w'.
Proof.
  intros A H i s' Hw Hs'.
  pose proof (alike_fields _ _ A) as (Ews & _). destruct A as [_ Es].
  rewrite Ews in Hw.
  destruct (shapes_lookup _ _ _ _ Es Hs') as (s & Hs & Hsh).
  unfold shape in Hsh. injection Hsh as E1 _ _ _ _.
  rewrite <- E1. by apply (H i s).
Qed.

Lemma tidy_cancelReconnect w : tidy w -> tidy (cancelReconnect w).
Proof.
  intros (Hinv & Hq & H1 & H2).
  destruct (cancelReconnect_inv _ Hinv) as (Hinv' & Hr & _).
  assert (ws (cancelReconnect w) = ws w /\
          sockets (cancelReconnect w) = sockets w /\
          commandHandlers (cancelReconnect w) = commandHandlers w /\
          connectionHandlers (cancelReconnect w) = connectionHandlers w)
    as (Ews & Es & Ec & En)
    by (unfold cancelReconnect; by destruct (reconnectTimer w)).
  split; [done|]. split; [unfold quiet; by rewrite Ec, En|]. split.
  - intros i s. rewrite Es, Ews. apply H1.
  - rewrite Hr. intros [? ?]. discriminate.
Qed.

Lemma tidy_scheduleReconnect w :
  tidy w -> ws_closed w -> tidy (scheduleReconnect w).
Proof.
  intros (Hinv & Hq & H1 & H2) Hc.
  destruct (scheduleReconnect_inv _ Hinv) as (Hinv' & _).
  assert (ws (scheduleReconnect w) = ws w /\
          sockets (scheduleReconnect w) = sockets w /\
          commandHandlers (scheduleReconnect w) = commandHandlers w /\
          connectionHandlers (scheduleReconnect w) = connectionHandlers w)
    as (Ews & Es & Ec & En)
    by (unfold scheduleReconnect; by destruct (reconnectTimer w)).
  split; [done|]. split; [unfold quiet; by rewrite Ec, En|]. split.
  - intros i s. rewrite Es, Ews. apply H1.
  - intros _ i s. rewrite Es, Ews. apply Hc.
Qed.

(** A change of the current socket. *)
Lemma tidy_insert_current w id s s' :
  tidy w -> ws w = Some id -> sockets w !! id = Some s ->
  (is_Some (reconnectTimer w) -> readyState s' = CLOSED) ->
  tidy (set_sockets (<[id := s']> (sockets w)) w).
Proof.
  intros ([Hone Hex] & Hq & H1 & H2) Hw Hs Hc.
  pose proof (lookup_lt_Some _ _ _ Hs) as Hlt.
  split; [split|split; [done|split]].
  - done.
  - intros i. simpl. rewrite length_insert. apply Hex.
  - intros i si. simpl. intros Hsi Hne.
    rewrite list_lookup_insert_ne in Hsi by congruence. by apply (H1 i si).
  - simpl. intros Hsome i si. simpl. intros Hwi Hsi.
    assert (i = id) as -> by congruence.
    rewrite list_lookup_insert_eq in Hsi by done.
    injection Hsi as <-. by apply Hc.
Qed.

(** A change of another socket. *)
Lemma tidy_insert_other w id s s' :
  tidy w -> ws w <> Some id -> sockets w !! id = Some s ->
  (readyState s' = CLOSED \/ (readyState s' = CLOSING /\ all_null s')) ->
  tidy (set_sockets (<[id := s']> (sockets w)) w).
Proof.
  intros ([Hone Hex] & Hq & H1 & H2) Hw Hs Hc.
  pose proof (lookup_lt_Some _ _ _ Hs) as Hlt.
  split; [split|split; [done|split]].
  - done.
  - intros i. simpl. rewrite length_insert. apply Hex.
  - intros i si. simpl. intros Hsi Hne.
    destruct (decide (i = id)) as [->|Hi].
    + rewrite list_lookup_insert_eq in Hsi by done. by injection Hsi as <-.
    + rewrite list_lookup_insert_ne in Hsi by done. by apply (H1 i si).
  - simpl. intros Hsome i si. simpl. intros Hwi Hsi.
    assert (i <> id) as Hi by congruence.
    rewrite list_lookup_insert_ne in Hsi by done. by apply (H2 Hsome i si).
Qed.

Lemma tidy_connect w :
  tidy w -> reconnectTimer w = None -> ws_closed w -> tidy (connect w).
Proof.
  intros Ht Hr Hc. unfold connect.
  destruct (destroyed w); [done|].
  destruct (ws_is_open w); [done|].
  destruct (constructible w); [|by apply tidy_scheduleReconnect].
  pose proof Ht as (Hinv & Hq & H1 & H2).
  split; [|split; [done|split]].
  - pose proof (connect_inv w Hinv) as Hi. unfold connect in Hi.
    destruct (destroyed w); [|destruct (ws_is_open w)];
      try (destruct Hinv as [Hone Hex]; split;
           [done | intros i; simpl; intros E; injection E as <-;
                   rewrite length_app; simpl; lia]).
  - intros i s. simpl. intros Hs Hne.
    assert (i < length (sockets w))%nat as Hlt.
    { apply lookup_lt_Some in Hs. rewrite length_app in Hs. simpl in Hs.
      destruct (decide (i = length (sockets w))); [congruence | lia]. }
    rewrite lookup_app_l in Hs by done.
    destruct (decide (ws w = Some i)) as [Hw|Hw].
    + left. by apply (Hc i s).
    + by apply (H1 i s).
  - simpl. rewrite Hr. intros [? ?]. discriminate.
Qed.

Lemma disconnect_handlers w :
  commandHandlers (disconnect w) = commandHandlers w /\
  connectionHandlers (disconnect w) = connectionHandlers w.
Proof.
  unfold disconnect. set (c1 := cancelReconnect (set_destroyed true w)).
  assert (commandHandlers c1 = commandHandlers w /\
          connectionHandlers c1 = connectionHandlers w) as [E1 E2]
    by (unfold c1, cancelReconnect; simpl; by destruct (reconnectTimer w)).
  destruct (ws c1) as [i|]; simpl; [|done].
  destruct (update_socket_fields i WebSocket_close
              (update_socket i WebSocket_detach c1))
    as (_ & _ & _ & _ & _ & -> & -> & _).
  destruct (update_socket_fields i WebSocket_detach c1)
    as (_ & _ & _ & _ & _ & -> & -> & _).
  done.
Qed.

Lemma disconnect_sockets w i s' :
  sockets (disconnect w) !! i = Some s' ->
  exists s,
    sockets w !! i = Some s /\
    (s' = s /\ ws w <> Some i \/
     s' = WebSocket_close (WebSocket_detach s) /\ ws w = Some i).
Proof.
  unfold disconnect. set (c1 := cancelReconnect (set_destroyed true w)).
  assert (ws c1 = ws w /\ sockets c1 = sockets w) as [Ew Es]
    by (unfold c1, cancelReconnect; simpl; by destruct (reconnectTimer w)).
  rewrite Ew. destruct (ws w) as [j|]; simpl.
  - unfold update_socket at 2. rewrite Es.
    destruct (sockets w !! j) as [sj|] eqn:Hj.
    + unfold update_socket. simpl.
      rewrite list_lookup_insert_eq by (by apply lookup_lt_Some in Hj).
      simpl. rewrite list_insert_insert_eq.
      destruct (decide (i = j)) as [->|Hne].
      * rewrite list_lookup_insert_eq by (by apply lookup_lt_Some in Hj).
        intros E. injection E as <-. exists sj. split; [done|]. by right.
      * rewrite list_lookup_insert_ne by done. intros E.
        exists s'. split; [done|]. left. split; [done | congruence].
    + unfold update_socket. rewrite Es, Hj. simpl. rewrite Es. intros E.
      exists s'. split; [done|]. left. split; [done|].
      intros Ej. injection Ej as ->. congruence.
  - rewrite Es. intros E. exists s'. split; [done|]. by left.
Qed.

Lemma tidy_disconnect w : tidy w -> tidy (disconnect w).
Proof.
  intros (Hinv & [Hq1 Hq2] & H1 & H2).
  destruct (disconnect_handlers w) as [Ec En].
  destruct (disconnect_fields w) as (_ & Hws & _ & Hr).
  split; [by apply disconnect_inv|].
  split; [unfold quiet; by rewrite Ec, En|]. split.
  - intros i s' Hs' _.
    destruct (disconnect_sockets _ _ _ Hs') as (s & Hs & [[-> Hne]|[-> Hw]]).
    + by apply (H1 i s).
    + unfold WebSocket_close, WebSocket_detach. simpl.
      destruct (readyState s); simpl; auto; right; by split.
  - rewrite Hr. intros [? ?]. discriminate.
Qed.

Lemma tidy_ws_onopen w : tidy w -> tidy (ws_onopen w).
Proof.
  intros Ht. unfold ws_onopen.
  assert (tidy (set_connected true w)) as H1
    by (by apply (tidy_same w)).
  assert (tidy (notifyConnectionChange true (set_connected true w))) as H2.
  { eapply tidy_alike; [|exact H1].
    apply handlers_alike. by destruct Ht as (_ & [_ Hq] & _). }
  pose proof (tidy_cancelReconnect _ H2) as H3.
  set (c2 := cancelReconnect _) in *.
  destruct (ws c2) as [i|] eqn:Ew; [|done].
  destruct (sockets c2 !! i) as [s|] eqn:Hs; [|done].
  destruct (WebSocket_send identify s) as [s'|] eqn:E; [|done].
  eapply tidy_alike; [|exact H3].
  apply (insert_alike c2 i s s' Hs).
  unfold WebSocket_send in E. destruct (readyState s) eqn:Er;
    inversion E; subst; unfold shape; simpl; by rewrite ?Er.
Qed.

Lemma current_of_tidy w id s :
  tidy w -> sockets w !! id = Some s ->
  readyState s <> CLOSED -> ~ all_null s -> ws w = Some id.
Proof.
  intros (_ & _ & H1 & _) Hs Hc Hn.
  destruct (decide (ws w = Some id)) as [|Hne]; [done|].
  destruct (H1 id s Hs Hne) as [?|[_ ?]]; done.
Qed.

Lemma step_tidy w ev : tidy w -> hands_off ev -> tidy (step w ev).
Proof.
  intros Ht Hev. pose proof Ht as (Hinv & [Hq1 Hq2] & H1 & H2).
  destruct ev as [call|h|h|id|id data|id|id|h]; simpl.
  - destruct call as [| |m]; simpl; [done | by apply tidy_disconnect|].
    eapply tidy_alike; [apply send_alike | done].
  - simpl in Hev. split; [by destruct Hinv|]. split; [|by split].
    split; [|done]. simpl. apply Forall_app. split; [done | by constructor].
  - simpl in Hev. split; [by destruct Hinv|]. split; [|by split].
    split; [done|]. simpl. apply Forall_app. split; [done | by constructor].
  - destruct (sockets w !! id) as [s|] eqn:Hs; [|done].
    destruct (ReadyState_eqb (readyState s) CONNECTING) eqn:Er; [|done].
    assert (readyState s = CONNECTING) as Hr by (by destruct (readyState s)).
    assert (ws w = Some id) as Hw.
    { destruct (decide (ws w = Some id)) as [|Hne]; [done|].
      destruct (H1 id s Hs Hne) as [?|[? _]]; congruence. }
    assert (tidy (update_socket id (WebSocket_set_readyState OPEN) w)) as Hc1.
    { unfold update_socket. rewrite Hs.
      apply (tidy_insert_current w id s); try done.
      intros Hsome. pose proof (H2 Hsome id s Hw Hs). congruence. }
    destruct (onopen s); [by apply tidy_ws_onopen | done].
  - destruct (sockets w !! id) as [s|] eqn:Hs; [|done].
    destruct (_ || _); [|done].
    destruct (onmessage s); [|done].
    destruct data as [command|]; [|done].
    eapply tidy_alike; [|exact Ht]. by apply handlers_alike.
  - destruct (sockets w !! id) as [s|] eqn:Hs; [|done].
    destruct (ReadyState_eqb (readyState s) CLOSED); [done|].
    by destruct (onerror s).
  - destruct (sockets w !! id) as [s|] eqn:Hs; [|done].
    destruct (ReadyState_eqb (readyState s) CLOSED) eqn:Er; [done|].
    assert (readyState s <> CLOSED) as Hr
      by (intros E; by rewrite E in Er).
    unfold update_socket. rewrite Hs.
    destruct (decide (ws w = Some id)) as [Hw|Hw].
    + assert (tidy (set_sockets
                      (<[id := WebSocket_set_readyState CLOSED s]> (sockets w))
                      w)) as Hc1
        by (by apply (tidy_insert_current w id s)).
      destruct (onclose s); [|done].
      unfold ws_onclose. set (c1 := set_sockets _ w) in *.
      assert (ws_closed c1) as Hcl.
      { intros i si. simpl. intros Hwi Hsi.
        assert (i = id) as -> by congruence.
        rewrite list_lookup_insert_eq in Hsi
          by (by apply lookup_lt_Some in Hs).
        by injection Hsi as <-. }
      assert (alike (set_connected false c1)
                (notifyConnectionChange false (set_connected false c1))) as A
        by (by apply handlers_alike).
      apply tidy_scheduleReconnect.
      * eapply tidy_alike; [exact A|]. by apply (tidy_same c1).
      * eapply ws_closed_alike; [exact A|]. exact Hcl.
    + assert (onclose s = false) as ->.
      { destruct (H1 id s Hs Hw) as [?|[_ (_ & _ & _ & ?)]]; done. }
      apply (tidy_insert_other w id s); try done. by left.
  - destruct (pending_timer h w) eqn:Hp; [|done].
    pose proof (pending_timer_inv _ _ Hinv Hp) as Hr.
    assert (ws_closed w) as Hcl by (apply H2; eauto).
    unfold reconnect_timeout. apply tidy_connect; [|done|done].
    pose proof (step_inv w (TimerFired h) Hinv) as Hi.
    split; [|split; [done|split]].
    + destruct Hinv as [Hone Hex]. unfold one_timer in Hone.
      rewrite Hr in Hone. split; [|done].
      unfold one_timer. simpl. rewrite Hone, filter_cons. simpl.
      by case_decide.
    + done.
    + simpl. intros [? ?]. discriminate.
Qed.

Lemma run_tidy (evs : list Event) : forall w,
  tidy w -> Forall hands_off evs -> tidy (run w evs).
Proof.
  induction evs as [|ev evs IH]; intros w Ht Hev; [done|].
  apply Forall_cons in Hev as [Hev Hevs].
  apply (IH (step w ev)); [by apply step_tidy | done].
Qed.

Lemma unconnected_tidy w : unconnected w -> tidy (connect w).
Proof.
  intros (Hs & Hw & Hr & Ht & Hq).
  apply tidy_connect; [|done|].
  - split; [split|split; [done|split]].
    + unfold one_timer. by rewrite Ht, Hr.
    + intros i. rewrite Hw. discriminate.
    + intros i s. rewrite Hs. discriminate.
    + rewrite Hr. intros [? ?]. discriminate.
  - intros i s. rewrite Hw. discriminate.
Qed.

(** A client whose user calls [connect()] once and then leaves the
    reconnections to the client, and whose handlers only send, never has two
    connections: at any time at most one socket is connecting or open, and
    it is the client's current socket. *)
Theorem at_most_one_live_socket
    (w0 : World) (evs : list Event) (id : nat) (s : WebSocket) :
  unconnected w0 -> Forall hands_off evs ->
  let w := run (connect w0) evs in
  sockets w !! id = Some s -> live s -> ws w = Some id.
Proof.
  intros H0 Hev w Hs Hl.
  assert (tidy w) as Ht by (by apply run_tidy; [apply unconnected_tidy|]).
  destruct (decide (ws w = Some id)) as [|Hne]; [done|].
  destruct Ht as (_ & _ & H1 & _).
  destruct (H1 id s Hs Hne) as [Hc|[Hc _]]; destruct Hl; congruence.
Qed.

Lemma onCommand_sends_only (b : bool) : sends_only (Home.onCommand b).
Proof.
  intros command. unfold Home.onCommand.
  repeat match goal with
    | |- context [if ?c then _ else _] => destruct c
    end; repeat constructor.
Qed.

(** The client of the page before the effect calls [connect()]. *)
Lemma page_unconnected (b ok : bool) :
  unconnected
    (onConnectionChange Home.onConnectionChange
       (onCommand (Home.onCommand b) (new "ws://localhost:8765" ok))).
Proof.
  repeat split; simpl; repeat constructor; apply onCommand_sends_only.
Qed.

Lemma at_most_one_live_socket_witness :
  let w := run (Home.avatarEffect Home.mount true)
             [SocketOpen 0; SocketClose 0; TimerFired 1] in
  sockets w !! 1%nat = Some fresh_socket /\ ws w = Some 1%nat.
Proof.
  intros w. split; [reflexivity|].
  apply (at_most_one_live_socket _
           [SocketOpen 0; SocketClose 0; TimerFired 1] 1%nat fresh_socket
           (page_unconnected false true)).
  - repeat constructor.
  - reflexivity.
  - by left.
Defined.

(** *** The reconnection *)

Lemma scheduleReconnect_fields w :
  ws (scheduleReconnect w) = ws w /\
  sockets (scheduleReconnect w) = sockets w /\
  connected (scheduleReconnect w) = connected w /\
  destroyed (scheduleReconnect w) = destroyed w /\
  constructible (scheduleReconnect w) = constructible w /\
  is_Some (reconnectTimer (scheduleReconnect w)).
Proof.
  unfold scheduleReconnect. destruct (reconnectTimer w) eqn:E; simpl;
    rewrite ?E; repeat split; eauto.
Qed.

(** When the current socket of such a client closes, the client is
    disconnected with one reconnect timeout pending; when that timeout
    fires, a client that is not destroyed and can construct a socket has a
    new socket, still connecting and with its callbacks installed, as its
    current socket, and no timeout pending. *)
Theorem close_then_timeout_reconnects
    (w0 : World) (evs : list Event) (id : nat) (s : WebSocket) :
  unconnected w0 -> Forall hands_off evs ->
  let w := run (connect w0) evs in
  destroyed w = false -> constructible w = true ->
  sockets w !! id = Some s -> readyState s <> CLOSED -> onclose s = true ->
  exists h,
    let w1 := step w (SocketClose id) in
    let w2 := step w1 (TimerFired h) in
    timers w1 = [(h, 5000)] /\ connected w1 = false /\
    ws w2 = Some (length (sockets w)) /\
    sockets w2 = sockets w1 ++ [fresh_socket] /\ timers w2 = [].
Proof.
  intros H0 Hev w Hd Hc Hs Hr Ho.
  assert (tidy w) as Ht by (by apply run_tidy; [apply unconnected_tidy|]).
  assert (ws w = Some id) as Hw.
  { apply (current_of_tidy w id s Ht Hs Hr). intros (_ & _ & _ & ?).
    congruence. }
  assert (tidy (step w (SocketClose id))) as Ht1 by (by apply step_tidy).
  assert (exists h, reconnectTimer (step w (SocketClose id)) = Some h /\
                    ws (step w (SocketClose id)) = Some id /\
                    connected (step w (SocketClose id)) = false /\
                    destroyed (step w (SocketClose id)) = false /\
                    constructible (step w (SocketClose id)) = true /\
                    length (sockets (step w (SocketClose id)))
                    = length (sockets w)) as (h & Hh & Hw1 & Hn1 & Hd1 & Hc1 & Hl1).
  { simpl. rewrite Hs.
    destruct (ReadyState_eqb (readyState s) CLOSED) eqn:Er;
      [by destruct (readyState s)|].
    rewrite Ho. unfold ws_onclose, update_socket. rewrite Hs.
    set (c1 := set_sockets _ w).
    assert (alike (set_connected false c1)
              (notifyConnectionChange false (set_connected false c1))) as A.
    { apply handlers_alike. by destruct Ht as (_ & [_ Hq] & _). }
    pose proof (alike_fields _ _ A) as (Ew & _ & _ & En & Ed & Ec & _).
    destruct A as [_ Es]. apply (f_equal length) in Es.
    rewrite !length_map in Es. simpl in Es. rewrite length_insert in Es.
    destruct (scheduleReconnect_fields
                (notifyConnectionChange false (set_connected false c1)))
      as (-> & -> & -> & -> & -> & [h Hh]).
    exists h. rewrite Ew, En, Ed, Ec. simpl. by rewrite <- Es. }
  exists h. intros w1 w2.
  assert (timers w1 = [(h, 5000)]) as Ht1'.
  { destruct Ht1 as ([Hone _] & _). unfold one_timer in Hone.
    fold w1 in Hone, Hh. by rewrite Hh in Hone. }
  fold w1 in Hh, Hw1, Hn1, Hd1, Hc1, Hl1, Ht1.
  split; [done|]. split; [done|].
  assert (ws_closed w1) as Hcl.
  { destruct Ht1 as (_ & _ & _ & H2). apply H2. rewrite Hh. eauto. }
  assert (pending_timer h w1 = true) as Hp.
  { unfold pending_timer. rewrite Ht1'. simpl. by rewrite Nat.eqb_refl. }
  unfold w2. simpl. rewrite Hp. unfold reconnect_timeout, connect. simpl.
  rewrite Hd1.
  assert (ws_is_open (set_reconnectTimer None (clearTimeout h w1)) = false)
    as ->.
  { unfold ws_is_open. simpl. rewrite Hw1.
    destruct (sockets w1 !! id) as [s1|] eqn:Hs1; [|done].
    by rewrite (Hcl id s1 Hw1 Hs1). }
  rewrite Hc1. simpl. rewrite Hl1, Ht1', filter_cons. simpl.
  by case_decide.
Qed.

Lemma close_then_timeout_reconnects_witness :
  let w := run (Home.avatarEffect Home.mount true) [SocketOpen 0] in
  let w2 := run w [SocketClose 0; TimerFired 1] in
  ws w2 = Some 1%nat /\ timers w2 = [].
Proof.
  intros w w2.
  destruct (close_then_timeout_reconnects _ [SocketOpen 0] 0%nat
              (mkWebSocket OPEN true true true true [identify])
              (page_unconnected false true))
    as (h & Ht & _ & Hw & _ & Ht2);
    [repeat constructor | reflexivity | reflexivity | reflexivity
     | discriminate | reflexivity |].
  vm_compute in Ht. injection Ht as <-.
  split; [exact Hw | exact Ht2].
Defined.

End Tidy.

(** ** The frames of a connection *)

Section Frames.
Import AvatarClient Spec Facts.

Variable P : Json -> Prop.

Implicit Types (w : World) (id : nat).

Lemma sends_frames_only {A} (h : A -> list Call) :
  sends_frames P h -> sends_only h.
Proof.
  intros H x. eapply Forall_impl; [apply H|]. by intros [].
Qed.

Lemma silent_only {A} (h : A -> list Call) : silent h -> sends_only h.
Proof. intros H x. rewrite H. constructor. Qed.

Lemma polite_quiet w : polite P w -> quiet w.
Proof.
  intros [H1 H2]. split; (eapply Forall_impl; [eassumption|]);
    auto using @sends_frames_only, @silent_only.
Qed.

Lemma courteous_hands_off ev : courteous P ev -> hands_off ev.
Proof.
  destruct ev as [[]| | | | | | |]; simpl;
    auto using @sends_frames_only, @silent_only.
Qed.

Lemma silent_fold {A} (x : A) (hs : list (A -> list Call)) : forall w,
  Forall silent hs ->
  fold_left (fun c h => fold_left perform (h x) c) hs w = w.
Proof.
  induction hs as [|h hs IH]; intros w H; [done|].
  apply Forall_cons in H as [Hh Hhs]. simpl. rewrite Hh. simpl. by apply IH.
Qed.

Lemma cancelReconnect_fields w :
  ws (cancelReconnect w) = ws w /\
  sockets (cancelReconnect w) = sockets w /\
  commandHandlers (cancelReconnect w) = commandHandlers w /\
  connectionHandlers (cancelReconnect w) = connectionHandlers w.
Proof. unfold cancelReconnect. by destruct (reconnectTimer w). Qed.

Lemma scheduleReconnect_handlers w :
  commandHandlers (scheduleReconnect w) = commandHandlers w /\
  connectionHandlers (scheduleReconnect w) = connectionHandlers w.
Proof. unfold scheduleReconnect. by destruct (reconnectTimer w). Qed.

(** A change that leaves the sockets, the current socket and the handlers. *)
Lemma orderly_frame w w' :
  ws w' = ws w -> sockets w' = sockets w ->
  commandHandlers w' = commandHandlers w ->
  connectionHandlers w' = connectionHandlers w ->
  orderly P w -> orderly P w'.
Proof.
  intros Ew Es Ec En ([H1 H2] & HK & HJ).
  split; [split|split].
  - by rewrite Ec.
  - by rewrite En.
  - intros i s. rewrite Es. apply HK.
  - intros i s. rewrite Ew, Es. apply HJ.
Qed.

(** A change of one socket that keeps what it has sent. *)
Lemma orderly_insert w id s s' :
  orderly P w -> sockets w !! id = Some s -> sent s' = sent s ->
  (readyState s' = CONNECTING -> sent s = []) ->
  (ws w = Some id ->
   onopen s' = true /\ (readyState s' = OPEN -> sent s <> [])) ->
  orderly P (set_sockets (<[id := s']> (sockets w)) w).
Proof.
  intros (Hp & HK & HJ) Hs Es Hc Hw.
  pose proof (lookup_lt_Some _ _ _ Hs) as Hlt.
  split; [done|]. split.
  - intros i si. simpl. intros Hsi.
    destruct (decide (i = id)) as [->|Hne].
    + rewrite list_lookup_insert_eq in Hsi by done. injection Hsi as <-.
      destruct (HK id s Hs) as [Hg _]. unfold greeted. rewrite Es.
      split; [exact Hg | exact Hc].
    + rewrite list_lookup_insert_ne in Hsi by done. by apply (HK i si).
  - intros i si. simpl. intros Hwi Hsi.
    destruct (decide (i = id)) as [->|Hne].
    + rewrite list_lookup_insert_eq in Hsi by done. injection Hsi as <-.
      rewrite Es. by apply Hw.
    + rewrite list_lookup_insert_ne in Hsi by done. by apply (HJ i si).
Qed.

Lemma orderly_send m w : orderly P w -> P m -> orderly P (send m w).
Proof.
  intros Ho Hm. unfold send.
  destruct (negb (isConnected w)) eqn:Ec; [done|].
  destruct (ws w) as [i|] eqn:Ew; [|done].
  destruct (sockets w !! i) as [s|] eqn:Hs; [|done].
  destruct (WebSocket_send m s) as [s'|] eqn:E; [|done].
  pose proof Ho as (Hp & HK & HJ).
  pose proof (lookup_lt_Some _ _ _ Hs) as Hlt.
  unfold WebSocket_send in E.
  destruct (readyState s) eqn:Er; try discriminate;
    try (injection E as <-;
         by apply (orderly_insert w i s s Ho Hs eq_refl);
           [intros; congruence | intros _; apply (HJ i s Ew Hs)]).
  injection E as <-.
  destruct (HJ i s Ew Hs) as [Hon Hne].
  destruct (HK i s Hs) as [[Hnil|(rest & Hrest & Hall)] _];
    [by apply Hne in Hnil|].
  split; [done|]. split.
  - intros j sj. simpl. intros Hsj.
    destruct (decide (j = i)) as [->|Hji].
    + rewrite list_lookup_insert_eq in Hsj by done. injection Hsj as <-.
      simpl. split; [|intros; congruence].
      right. exists (rest ++ [m]). rewrite Hrest. split; [done|].
      apply Forall_app. split; [done | by constructor].
    + rewrite list_lookup_insert_ne in Hsj by done. by apply (HK j sj).
  - intros j sj. simpl. intros Hwj Hsj.
    assert (j = i) as -> by congruence.
    rewrite list_lookup_insert_eq in Hsj by done. injection Hsj as <-.
    simpl. split; [done|]. intros _. rewrite Hrest. done.
Qed.

Lemma orderly_sends (l : list Call) : forall w,
  orderly P w ->
  Forall (fun c => match c with Send m => P m | _ => False end) l ->
  orderly P (fold_left perform l w).
Proof.
  induction l as [|c l IH]; intros w Ho H; [done|].
  apply Forall_cons in H as [Hc Hl]. simpl. apply IH; [|done].
  destruct c; try done. by apply orderly_send.
Qed.

Lemma orderly_commands (x : CommandMessage) (hs : list CommandHandler) :
  forall w,
    orderly P w -> Forall (sends_frames P) hs ->
    orderly P (fold_left (fun c h => fold_left perform (h x) c) hs w).
Proof.
  induction hs as [|h hs IH]; intros w Ho H; [done|].
  apply Forall_cons in H as [Hh Hhs]. simpl.
  apply IH; [|done]. by apply orderly_sends.
Qed.

Lemma orderly_connect w :
  orderly P w -> orderly P (connect w).
Proof.
  intros Ho. unfold connect.
  destruct (destroyed w); [done|].
  destruct (ws_is_open w); [done|].
  destruct (constructible w).
  - destruct Ho as (Hp & HK & HJ). split; [done|]. split.
    + intros i s. simpl. intros Hs.
      destruct (decide (i = length (sockets w))) as [->|Hne].
      * rewrite lookup_app_r, Nat.sub_diag in Hs by lia. simpl in Hs.
        injection Hs as <-. split; [by left | done].
      * apply lookup_lt_Some in Hs as Hlt. rewrite length_app in Hlt.
        simpl in Hlt. rewrite lookup_app_l in Hs by lia. by apply (HK i s).
    + intros i s. simpl. intros Hw Hs.
      assert (i = length (sockets w)) as -> by congruence.
      rewrite lookup_app_r, Nat.sub_diag in Hs by lia. simpl in Hs.
      injection Hs as <-. by split.
  - destruct (scheduleReconnect_fields w) as (Ew & Es & _).
    destruct (scheduleReconnect_handlers w) as (Ec & En).
    by apply (orderly_frame w).
Qed.

Lemma orderly_disconnect w : orderly P w -> orderly P (disconnect w).
Proof.
  intros ([H1 H2] & HK & HJ).
  destruct (disconnect_handlers w) as [Ec En].
  destruct (disconnect_fields w) as (_ & Hws & _).
  split; [split; by rewrite ?Ec, ?En|]. split.
  - intros i s' Hs'.
    destruct (disconnect_sockets _ _ _ Hs') as (s & Hs & [[-> _]|[-> _]]).
    + by apply (HK i s).
    + destruct (HK i s Hs) as [Hg Hc].
      assert (sent (WebSocket_close (WebSocket_detach s)) = sent s) as Es
        by (unfold WebSocket_close; simpl; by destruct (readyState s)).
      unfold greeted. rewrite Es. split; [done|].
      unfold WebSocket_close. simpl. destruct (readyState s) eqn:Er; simpl;
        intros; congruence.
  - intros i s. rewrite Hws. discriminate.
Qed.

(** The step of a client that is tidy and orderly. *)
Lemma step_orderly w ev :
  tidy w -> orderly P w -> courteous P ev -> orderly P (step w ev).
Proof.
  intros Ht Ho Hev. pose proof Ho as ([Hp1 Hp2] & HK & HJ).
  destruct ev as [call|h|h|id|id data|id|id|h]; simpl.
  - destruct call as [| |m]; simpl;
      [done | by apply orderly_disconnect | by apply orderly_send].
  - simpl in Hev. split; [split; [|done]|by split].
    simpl. apply Forall_app. split; [done | by constructor].
  - simpl in Hev. split; [split; [done|]|by split].
    simpl. apply Forall_app. split; [done | by constructor].
  - destruct (sockets w !! id) as [s|] eqn:Hs; [|done].
    destruct (ReadyState_eqb (readyState s) CONNECTING) eqn:Er; [|done].
    assert (readyState s = CONNECTING) as Hr by (by destruct (readyState s)).
    assert (ws w = Some id) as Hw.
    { apply (current_of_tidy w id s Ht Hs); [congruence|].
      intros (Hn & _). destruct Ht as (_ & _ & H1 & _).
      destruct (decide (ws w = Some id)) as [Hw|Hne].
      - destruct (HJ id s Hw Hs). congruence.
      - destruct (H1 id s Hs Hne) as [?|[? _]]; congruence. }
    destruct (HJ id s Hw Hs) as [Hon _]. rewrite Hon.
    destruct (HK id s Hs) as [_ Hnil]. specialize (Hnil Hr).
    pose proof (lookup_lt_Some _ _ _ Hs) as Hlt.
    unfold update_socket. rewrite Hs. unfold ws_onopen.
    set (c1 := set_sockets _ w).
    unfold notifyConnectionChange.
    rewrite (silent_fold true (connectionHandlers (set_connected true c1)))
      by done.
    destruct (cancelReconnect_fields (set_connected true c1))
      as (Ew & Es & Ec & En).
    assert (polite P (cancelReconnect (set_connected true c1))) as Hpol
      by (split; rewrite ?Ec, ?En; done).
    rewrite Ew, Es. simpl. rewrite Hw. simpl.
    rewrite list_lookup_insert_eq by done. simpl.
    rewrite list_insert_insert_eq.
    split; [exact Hpol|]. split.
    + intros i si. simpl. rewrite ?Es. simpl. intros Hsi.
      destruct (decide (i = id)) as [->|Hne].
      * rewrite list_lookup_insert_eq in Hsi by done. injection Hsi as <-.
        simpl. rewrite Hnil. simpl. split; [|discriminate].
        right. exists []. by split.
      * rewrite list_lookup_insert_ne in Hsi by done. by apply (HK i si).
    + intros i si. simpl. rewrite ?Ew, ?Es. simpl. intros Hwi Hsi.
      assert (i = id) as -> by congruence.
      rewrite list_lookup_insert_eq in Hsi by done. injection Hsi as <-.
      simpl. split; [done|]. intros _. rewrite Hnil. done.
  - destruct (sockets w !! id) as [s|] eqn:Hs; [|done].
    destruct (_ || _); [|done].
    destruct (onmessage s); [|done].
    destruct data as [command|]; [|done].
    by apply orderly_commands.
  - destruct (sockets w !! id) as [s|] eqn:Hs; [|done].
    destruct (ReadyState_eqb (readyState s) CLOSED); [done|].
    by destruct (onerror s).
  - destruct (sockets w !! id) as [s|] eqn:Hs; [|done].
    destruct (ReadyState_eqb (readyState s) CLOSED) eqn:Er; [done|].
    unfold update_socket. rewrite Hs.
    assert (orderly P
              (set_sockets
                 (<[id := WebSocket_set_readyState CLOSED s]> (sockets w)) w))
      as Hc1.
    { apply (orderly_insert w id s); try done.
      intros Hw. destruct (HJ id s Hw Hs) as [Hon _]. split; [done|].
      simpl. discriminate. }
    destruct (onclose s); [|done].
    unfold ws_onclose. set (c1 := set_sockets _ w) in *.
    unfold notifyConnectionChange.
    rewrite (silent_fold false (connectionHandlers (set_connected false c1)))
      by done.
    destruct (scheduleReconnect_fields (set_connected false c1))
      as (Ew & Es & _).
    destruct (scheduleReconnect_handlers (set_connected false c1))
      as (Ec & En).
    by apply (orderly_frame c1).
  - destruct (pending_timer h w); [|done].
    unfold reconnect_timeout. apply orderly_connect.
    by apply (orderly_frame w).
Qed.

Lemma run_proper (evs : list Event) : forall w,
  tidy w -> orderly P w -> Forall (courteous P) evs ->
  tidy (run w evs) /\ orderly P (run w evs).
Proof.
  induction evs as [|ev evs IH]; intros w Ht Ho Hev; [done|].
  apply Forall_cons in Hev as [Hev Hevs].
  apply (IH (step w ev)); [|by apply step_orderly | done].
  by apply step_tidy; [|apply courteous_hands_off].
Qed.

Lemma frames_of_a_connection
    (w0 : World) (evs : list Event) (id : nat) (s : WebSocket) :
  unconnected w0 -> polite P w0 -> Forall (courteous P) evs ->
  sockets (run (connect w0) evs) !! id = Some s ->
  (readyState s = CONNECTING -> sent s = []) /\
  (sent s = [] \/ exists rest, sent s = identify :: rest /\ Forall P rest) /\
  (ws (run (connect w0) evs) = Some id -> readyState s = OPEN ->
   sent s <> []).
Proof.
  intros H0 Hp Hev Hs.
  assert (orderly P w0) as Ho0.
  { destruct H0 as (Hs0 & Hw0 & _). split; [done|]. split.
    - intros i si. rewrite Hs0. discriminate.
    - intros i si. rewrite Hw0. discriminate. }
  destruct (run_proper evs (connect w0)) as [_ (_ & HK & HJ)];
    [by apply unconnected_tidy | by apply orderly_connect | done |].
  destruct (HK id s Hs) as [Hg Hc].
  split; [done|]. split; [exact Hg|].
  intros Hw. by apply (HJ id s Hw Hs).
Qed.

(** On every connection of a client whose user calls [connect()] once,
    whose connection handlers call nothing and whose command handlers only
    send, the identification is the first frame sent, and nothing is sent
    while the socket is still connecting; what follows the identification
    are the frames the handlers and the callers of [send()] asked for. *)
Theorem identification_comes_first
    (w0 : World) (evs : list Event) (id : nat) (s : WebSocket) :
  unconnected w0 -> polite P w0 -> Forall (courteous P) evs ->
  let w := run (connect w0) evs in
  sockets w !! id = Some s ->
  (readyState s = CONNECTING -> sent s = []) /\
  (sent s = [] \/ exists rest, sent s = identify :: rest /\ Forall P rest) /\
  (ws w = Some id -> readyState s = OPEN -> sent s <> []).
Proof.
  intros H0 Hp Hev w Hs. by apply frames_of_a_connection.
Qed.

End Frames.

Section PageFrames.
Import AvatarClient Spec Facts.

Lemma onCommand_sends_status (b : bool) :
  sends_frames (fun m => m = status_frame b) (Home.onCommand b).
Proof.
  intros command. unfold Home.onCommand.
  repeat match goal with
    | |- context [if ?c then _ else _] => destruct c
    end; repeat constructor.
Qed.

Lemma page_polite (b ok : bool) :
  polite (fun m => m = status_frame b)
    (onConnectionChange Home.onConnectionChange
       (onCommand (Home.onCommand b) (new "ws://localhost:8765" ok))).
Proof.
  split; simpl; repeat constructor. apply onCommand_sends_status.
Qed.

Lemma identification_comes_first_witness :
  let w := run (Home.avatarEffect Home.mount true)
             [SocketOpen 0; SocketMessage 0 (Some getStatus)] in
  sockets w !! 0%nat
  = Some (mkWebSocket OPEN true true true true
            [identify; status_frame false]) /\
  exists rest, [identify; status_frame false] = identify :: rest /\
               Forall (fun m => m = status_frame false) rest.
Proof.
  intros w.
  assert (sockets w !! 0%nat
          = Some (mkWebSocket OPEN true true true true
                    [identify; status_frame false])) as Hs by reflexivity.
  split; [exact Hs|].
  destruct (identification_comes_first (fun m => m = status_frame false)
              _ [SocketOpen 0; SocketMessage 0 (Some getStatus)] 0%nat _
              (page_unconnected false true) (page_polite false true)
              ltac:(repeat constructor) Hs) as (_ & [Hnil|H] & _).
  - discriminate Hnil.
  - exact H.
Defined.

(** The client of the page transmits nothing but the identification,
    first on every connection, and after it replies to status requests; and
    every reply carries the [isAISpeaking] of the render in which the effect
    created the client. *)
Theorem the_page_sends_identification_then_status
    (st : Home.State) (ok : bool) (evs : list Event)
    (id : nat) (s : WebSocket) :
  Forall of_the_page evs ->
  let w := run (Home.avatarEffect st ok) evs in
  sockets w !! id = Some s ->
  sent s = [] \/
  exists n,
    sent s = identify :: replicate n (status_frame (Home.isAISpeaking st)).
Proof.
  intros Hev w Hs.
  destruct (frames_of_a_connection
              (fun m => m = status_frame (Home.isAISpeaking st))
              _ evs id s
              (page_unconnected (Home.isAISpeaking st) ok)
              (page_polite (Home.isAISpeaking st) ok)) as (_ & Hg & _).
  - eapply Forall_impl; [exact Hev|]. by intros [[]| | | | | | |].
  - exact Hs.
  - destruct Hg as [Hnil|(rest & Hrest & Hall)]; [by left|].
    right. exists (length rest). rewrite Hrest. f_equal.
    clear Hrest. induction Hall as [|m rest -> _ IH]; [done|].
    simpl. by rewrite <- IH.
Qed.

Lemma the_page_sends_identification_then_status_witness :
  let w := run (Home.avatarEffect Home.mount true)
             [SocketOpen 0; SocketMessage 0 (Some getStatus);
              SocketMessage 0 (Some getStatus)] in
  exists s n,
    sockets w !! 0%nat = Some s /\
    sent s = identify :: replicate n (status_frame false).
Proof.
  intros w.
  assert (sockets w !! 0%nat
          = Some (mkWebSocket OPEN true true true true
                    [identify; status_frame false; status_frame false]))
    as Hs by reflexivity.
  destruct (the_page_sends_identification_then_status Home.mount true
              [SocketOpen 0; SocketMessage 0 (Some getStatus);
               SocketMessage 0 (Some getStatus)] 0%nat _
              ltac:(repeat constructor) Hs) as [Hnil|[n Hn]].
  - discriminate Hnil.
  - eexists _, n. split; [exact Hs | exact Hn].
Defined.

End PageFrames.
